(** * TAT: the Tensor handle over a shared block-sparse Core

    A shallow embedding of [include/TAT/structure/tensor.hpp]: the
    [Tensor] handle (a name list plus a reference-counted [Core]), its
    constructors, the copy-on-write barrier, block lookup, scalar
    conversion, the 2-norm and the maximum norm, and the wrappers
    around the edge operator.

    Conventions.
    - A C++ call that may throw through [detail::error] returns an
      [Outcome]; behaviour the C++ standard leaves undefined ([front] of
      an empty vector, writing past the end of a range, a dangling
      handle) is the outcome [Undefined].
    - [std::shared_ptr<Core>] is a location in a heap of cells, each cell
      holding the use count of the control block and the Core.
    - [double] is the kernel's IEEE 754 binary64 [float] wherever a
      member computes with scalars or needs the literals [0] and [1]
      (the mutating members and [norm<2>]), so that rounding is the
      machine's. For
      the conversions between real and complex tensors and for
      [norm<-1>], which only copy, project and compare elements, a
      real number stands for a [double] and a pair of reals for a
      [std::complex<double>]. *)

From Stdlib Require Import ZArith Reals Lra Lia String Sorted Permutation.
From Stdlib Require Import Floats.
From stdpp Require Import base gmap strings list.

Local Open Scope string_scope.

(** ** Outcomes of a call *)

Inductive Outcome (A : Type) : Type :=
| Ok (a : A)
| Fatal (message : string)
| Undefined.
Arguments Ok {A} a.
Arguments Fatal {A} message.
Arguments Undefined {A}.

Definition is_ok {A} (o : Outcome A) : Prop := exists a, o = Ok a.
Definition is_fatal {A} (o : Outcome A) : Prop := exists m, o = Fatal m.

(** Modelled from the spec: [detail::error], declared outside the sources.
    Section 7: errors are fatal to the current operation and surface to
    the caller with a descriptive message. *)
Definition error {A} (message : string) : Outcome A := Fatal message.

Definition Name := string.
Definition Rank := nat.
Definition Size := nat.
Definition Arrow := bool.

(** ** Symmetry *)

(** Modelled from the spec: the [Symmetry] interface of [symmetry.hpp],
    which is not among the sources. Section 3: a value of an Abelian
    group with [+], unary [-], identity, equality and a total order, and
    the static properties [length] and [is_fermi_symmetry]. *)
Class Symmetry (Sym : Type) : Type := {
  sym_zero : Sym;
  sym_add : Sym -> Sym -> Sym;
  sym_neg : Sym -> Sym;
  sym_eqb : Sym -> Sym -> bool;
  sym_ltb : Sym -> Sym -> bool;
  sym_length : nat;
  is_fermi_symmetry : bool;
  sym_eqb_eq : forall a b, sym_eqb a b = true <-> a = b;
  sym_ltb_irrefl : forall a, sym_ltb a a = false;
  sym_ltb_trans : forall a b c,
    sym_ltb a b = true -> sym_ltb b c = true -> sym_ltb a c = true;
  sym_ltb_total : forall a b,
    sym_ltb a b = false -> sym_ltb b a = false -> a = b
}.

(** Modelled from the spec: [FermiSymmetry] of [symmetry.hpp], an
    integer particle number with [is_fermi_symmetry = true], as the tests
    use it ([TAT::FermiSymmetry] with charges [-2], [+1], [+2]). *)
#[export] Program Instance FermiSymmetry : Symmetry Z := {|
  sym_zero := 0%Z;
  sym_add := Z.add;
  sym_neg := Z.opp;
  sym_eqb := Z.eqb;
  sym_ltb := Z.ltb;
  sym_length := 1;
  is_fermi_symmetry := true
|}.
Next Obligation. intros a b. apply Z.eqb_eq. Qed.
Next Obligation. intros a. apply Z.ltb_irrefl. Qed.
Next Obligation.
  intros a b c H1 H2. apply Z.ltb_lt in H1, H2. apply Z.ltb_lt. lia.
Qed.
Next Obligation.
  intros a b H1 H2. apply Z.ltb_ge in H1, H2. lia.
Qed.

(** Modelled from the spec: [ParitySymmetry] of [symmetry.hpp], the
    group of two elements with [is_fermi_symmetry = true]. *)
#[export] Program Instance ParitySymmetry : Symmetry bool := {|
  sym_zero := false;
  sym_add := xorb;
  sym_neg := fun a => a;
  sym_eqb := Bool.eqb;
  sym_ltb := fun a b => negb a && b;
  sym_length := 1;
  is_fermi_symmetry := true
|}.
Next Obligation. intros a b. apply Bool.eqb_true_iff. Qed.
Next Obligation. intros []; reflexivity. Qed.
Next Obligation. intros [] [] []; simpl; congruence. Qed.
Next Obligation. intros [] []; simpl; congruence. Qed.

(** ** Scalars *)

(** The scalar interface the mutating members use: the literals [0] and
    [1] and [+=]. *)
Class Scalar (T : Type) : Type := {
  scalar_zero : T;
  scalar_one : T;
  scalar_add : T -> T -> T;
  scalar_one_nonzero : scalar_one <> scalar_zero
}.

(** [std::abs] into the real base type, which [norm<-1>] compares. *)
Class Absolute (T : Type) : Type := {
  std_abs : T -> R
}.

(** Real numbers under [std::abs], for the comparisons of
    [norm<-1>]. *)
#[export] Instance real_Absolute : Absolute R := {| std_abs := Rabs |}.

Definition complex : Type := R * R.
Definition complex_real (z : complex) : R := fst z.
Definition complex_imag (z : complex) : R := snd z.

(** [double]: IEEE 754 binary64 with round to nearest even, the
    arithmetic of the kernel's primitive [float]. *)
Definition double : Type := PrimFloat.float.

#[export] Program Instance double_Scalar : Scalar double := {|
  scalar_zero := PrimFloat.zero;
  scalar_one := PrimFloat.one;
  scalar_add := PrimFloat.add
|}.
Next Obligation.
  intros E.
  assert (H : PrimFloat.is_zero PrimFloat.one
              = PrimFloat.is_zero PrimFloat.zero) by now rewrite E.
  vm_compute in H. discriminate H.
Qed.

(** ** Edges, blocks and the Core *)

Section Structure.
Context {Sym : Type} {SymI : Symmetry Sym}.
Context {ScalarType : Type} {ScalarI : Scalar ScalarType}.

(** Modelled from the spec: [edge_segment_t] and [Edge] of [edge.hpp],
    which is not among the sources. Section 3: an ordered sequence of
    segments [(q_i, d_i)], and an arrow for a fermionic symmetry. *)
Definition edge_segment_t : Type := list (Sym * Size).

(** Modelled from the spec: see [edge_segment_t]. An edge built without
    an arrow has [arrow = false]. *)
Record Edge : Type := mkEdge {
  segment : edge_segment_t;
  arrow : Arrow
}.

(** Modelled from the spec: [Core::content_vector_t] of [core.hpp].
    Section 3: a block is a dense contiguous array inside the flat
    storage, found by its offset. *)
Record content_vector_t : Type := mkContent {
  content_offset : nat;
  content_size : nat
}.

(** Modelled from the spec: [Core] of [core.hpp], with the three members
    the header reads: [edges], [blocks] (the list [find_block] bisects)
    and [storage]. *)
Record Core : Type := mkCore {
  edges : list Edge;
  blocks : list (list Sym * content_vector_t);
  storage : list ScalarType
}.

(** [std::lexicographical_compare] over [Symmetry::operator<]. *)
Fixpoint lexicographical_compare (a b : list Sym) : bool :=
  match a, b with
  | _, [] => false
  | [], _ :: _ => true
  | x :: a', y :: b' =>
      if sym_ltb x y then true
      else if sym_ltb y x then false
      else lexicographical_compare a' b'
  end.

(** The four-iterator [std::equal]: same length, equal elementwise. *)
Fixpoint std_equal (a b : list Sym) : bool :=
  match a, b with
  | [], [] => true
  | x :: a', y :: b' => sym_eqb x y && std_equal a' b'
  | _, _ => false
  end.

(** [std::lower_bound]: bisection of [first, first + len). *)
Fixpoint lower_bound_loop {A} (fuel : nat) (v : list A) (less : A -> bool)
    (first len : nat) : nat :=
  match fuel with
  | O => first
  | S fuel' =>
      if Nat.eqb len 0 then first
      else
        let half := Nat.div2 len in
        let middle := first + half in
        match v !! middle with
        | Some x =>
            if less x
            then lower_bound_loop fuel' v less (middle + 1) (len - half - 1)
            else lower_bound_loop fuel' v less first half
        | None => first
        end
  end.

Definition lower_bound {A} (v : list A) (less : A -> bool) : nat :=
  lower_bound_loop (length v) v less 0 (length v).

(** [Tensor::find_block] on the Core: the index of the block, [None]
    for [v.end()]. *)
Definition find_block (c : Core) (symmetry_list : list Sym) : option nat :=
  let v := blocks c in
  let key := symmetry_list in
  let result :=
    lower_bound v (fun a => lexicographical_compare (fst a) key) in
  if Nat.eqb result (length v) then None
  else
    match v !! result with
    | Some found => if std_equal (fst found) key then Some result else None
    | None => None
    end.

(** [Tensor::blocks(symmetry_list)] on the Core. *)
Definition core_blocks (c : Core) (symmetry_list : list Sym)
    : Outcome content_vector_t :=
  match find_block c symmetry_list with
  | None => error "No such symmetry block in the tensor"
  | Some i =>
      match blocks c !! i with
      | Some found => Ok (snd found)
      | None => Undefined
      end
  end.

(** *** Core construction *)

(** Modelled from the spec: the constructor of [Core] ([core.hpp] is
    not among the sources). Section 4.2: enumerate the Cartesian
    product of the edges' segments, keep the tuples allowed by the
    conservation law, compute each block's volume, allocate one
    contiguous storage of the summed volumes and record the offset of
    each block; a rank-0 tensor has exactly one block of volume 1.
    Section 3: the blocks lie back to back in the storage in the
    lexicographic order of the tuples over each edge's segment order,
    which is the order of the enumeration, and the index [blocks] is a
    map sorted by the tuple, the order [find_block] bisects with.

    The sources hold no code of the constructor to compare with. Their
    tests, written against a later interface than this header, agree
    with this model on [basic_usage] and [when_0size]; the test
    [conversion_scalar] expects a block for the charges [-2] and [+2] on
    edges of arrows [true] and [false], which the conservation law of
    section 3 does not allow. *)
Fixpoint loop_edge (es : list Edge) : list (list Sym * list Size) :=
  match es with
  | [] => [([], [])]
  | e :: es' =>
      flat_map
        (fun qd => map (fun t => (fst qd :: fst t, snd qd :: snd t))
                       (loop_edge es'))
        (segment e)
  end.

(** Modelled from the spec: the sum of the conservation law of
    section 3, [s_k * q_k] summed over the edges with [s_k = -1] iff
    edge [k] has [arrow = true], else [+1]. *)
Fixpoint signed_summary (es : list Edge) (qs : list Sym) : Sym :=
  match es, qs with
  | e :: es', q :: qs' =>
      sym_add (if arrow e then sym_neg q else q) (signed_summary es' qs')
  | _, _ => sym_zero
  end.

(** Modelled from the spec: the conservation law, the signed sum is the
    identity. *)
Definition conserved (es : list Edge) (qs : list Sym) : bool :=
  sym_eqb (signed_summary es qs) sym_zero.

(** Modelled from the spec: the volume of a block of the given shape. *)
Definition volume (dims : list Size) : nat := fold_right Nat.mul 1 dims.

(** Modelled from the spec: the conservation-allowed tuples with their
    shapes, in the order of the enumeration. *)
Definition allowed_blocks (es : list Edge) : list (list Sym * list Size) :=
  List.filter (fun qd => conserved es (fst qd)) (loop_edge es).

(** Modelled from the spec: blocks laid out back to back, each with its
    offset. *)
Fixpoint layout (offset : nat) (l : list (list Sym * list Size))
    : list (list Sym * content_vector_t) :=
  match l with
  | [] => []
  | qd :: l' =>
      (fst qd, mkContent offset (volume (snd qd)))
        :: layout (offset + volume (snd qd)) l'
  end.

(** Modelled from the spec: the summed volumes. *)
Definition total_volume (l : list (list Sym * list Size)) : nat :=
  fold_right (fun qd acc => volume (snd qd) + acc) 0 l.

(** Modelled from the spec: the sorted map of the blocks, built by
    insertion in the order of the keys; among equal keys, which an edge
    with distinct charges never produces, the order of insertion is
    kept. *)
Fixpoint insert_sorted {B} (x : list Sym * B) (l : list (list Sym * B))
    : list (list Sym * B) :=
  match l with
  | [] => [x]
  | y :: l' =>
      if lexicographical_compare (fst y) (fst x)
      then y :: insert_sorted x l'
      else x :: y :: l'
  end.

(** Modelled from the spec: see [insert_sorted]. *)
Definition sort_blocks {B} (l : list (list Sym * B)) : list (list Sym * B) :=
  fold_right insert_sorted [] l.

(** Modelled from the spec: [Core(edges)], the constructor. [uninit]
    stands for the indeterminate content of freshly allocated storage. *)
Definition Core_make (uninit : nat -> ScalarType) (es : list Edge) : Core :=
  let l := allowed_blocks es in
  {| edges := es;
     blocks := sort_blocks (layout 0 l);
     storage := map uninit (seq 0 (total_volume l)) |}.

(** ** The heap of shared Cores *)

Definition loc : Type := positive.

(** The control block of a [std::shared_ptr<Core>] and the Core. *)
Record Cell : Type := mkCell {
  use_count : nat;
  cell_core : Core
}.

(** [diagnostics] collects what [detail::what_if_copy_shared] emits. *)
Record World : Type := mkWorld {
  heap : gmap loc Cell;
  diagnostics : list string
}.

Record Tensor : Type := mkTensor {
  names : list Name;
  core : loc
}.

(** A [ScalarType&]: the Core it points into and the index there. *)
Definition reference : Type := (loc * nat)%type.

(** Non-const members thread the world; an exception keeps the world
    as it was when thrown. *)
Definition M (A : Type) : Type := World -> Outcome A * World.

Definition ret {A} (a : A) : M A := fun w => (Ok a, w).

Definition bind {A B} (m : M A) (k : A -> M B) : M B :=
  fun w =>
    match m w with
    | (Ok a, w') => k a w'
    | (Fatal message, w') => (Fatal message, w')
    | (Undefined, w') => (Undefined, w')
    end.

Notation "'let!' x ':=' m 'in' k" := (bind m (fun x => k))
  (at level 10, x name, m at level 100, k at level 200).

(** Const members only read the world. *)
Definition read {A} (r : World -> Outcome A) : M A := fun w => (r w, w).

Definition lift {A} (o : Outcome A) : M A := fun w => (o, w).

Definition read_core (t : Tensor) (w : World) : Outcome Core :=
  match heap w !! core t with
  | Some cell => Ok (cell_core cell)
  | None => Undefined
  end.

Definition set_storage (c : Core) (s : list ScalarType) : Core :=
  {| edges := edges c; blocks := blocks c; storage := s |}.

(** Write through [core->storage] of a non-const handle. *)
Definition modify_storage (g : list ScalarType -> Outcome (list ScalarType))
    (t : Tensor) : M unit :=
  fun w =>
    match heap w !! core t with
    | Some cell =>
        match g (storage (cell_core cell)) with
        | Ok s =>
            (Ok tt,
             mkWorld
               (<[core t := mkCell (use_count cell)
                                    (set_storage (cell_core cell) s)]>
                  (heap w))
               (diagnostics w))
        | Fatal message => (Fatal message, w)
        | Undefined => (Undefined, w)
        end
    | None => (Undefined, w)
    end.

(** ** Tensor *)

(** The compile-time constant [debug_mode], defined outside the
    sources. *)
Variable debug_mode : bool.

Definition get_rank (t : Tensor) : Rank := length (names t).

Fixpoint check_duplicate (names : list Name) : Outcome bool :=
  match names with
  | [] => Ok true
  | i :: rest =>
      if existsb (String.eqb i) rest
      then error "Duplicated names in name list"
      else check_duplicate rest
  end.

Definition check_valid_name (names : list Name) (rank : Rank)
    : Outcome bool :=
  if negb (Nat.eqb (length names) rank)
  then error "Wrong name list length which no equals to expected length"
  else check_duplicate names.

(** [Tensor(names_init, edges_init)]. When the check throws, the
    constructor is left and the only reference to the fresh Core goes
    with it. *)
Definition Tensor_new (uninit : nat -> ScalarType)
    (names_init : list Name) (edges_init : list Edge) : M Tensor :=
  fun w =>
    let p := fresh (dom (heap w)) in
    let c := Core_make uninit edges_init in
    let w' := mkWorld (<[p := mkCell 1 c]> (heap w)) (diagnostics w) in
    let t := mkTensor names_init p in
    if debug_mode then
      match check_valid_name names_init (length (edges c)) with
      | Ok _ => (Ok t, w')
      | Fatal message =>
          (Fatal message, mkWorld (delete p (heap w')) (diagnostics w'))
      | Undefined => (Undefined, w')
      end
    else (Ok t, w').

(** [storage().front() = number]. *)
Definition set_front (number : ScalarType) (t : Tensor) : M unit :=
  modify_storage
    (fun s => match s with
              | [] => Undefined
              | _ :: rest => Ok (number :: rest)
              end) t.

(** [explicit Tensor(ScalarType number)]. *)
Definition Tensor_of_number (uninit : nat -> ScalarType)
    (number : ScalarType) : M Tensor :=
  let! t := Tensor_new uninit [] [] in
  let! _ := set_front number t in
  ret t.

(** [Tensor() : Tensor(1)]. *)
Definition Tensor_default (uninit : nat -> ScalarType) : M Tensor :=
  Tensor_of_number uninit scalar_one.

Fixpoint edges_from_symmetry_and_arrow (edge_symmetry : list Sym)
    (edge_arrow : list Arrow) : Outcome (list Edge) :=
  match edge_symmetry with
  | [] => Ok []
  | symmetry :: symmetries =>
      if is_fermi_symmetry then
        match edge_arrow with
        | a :: arrows =>
            match edges_from_symmetry_and_arrow symmetries arrows with
            | Ok result => Ok (mkEdge [(symmetry, 1)] a :: result)
            | o => o
            end
        | [] => Undefined
        end
      else
        match edges_from_symmetry_and_arrow symmetries (tail edge_arrow) with
        | Ok result => Ok (mkEdge [(symmetry, 1)] false :: result)
        | o => o
        end
  end.

Definition get_edge_from_edge_symmetry_and_arrow
    (edge_symmetry : list Sym) (edge_arrow : list Arrow) (rank : Rank)
    : Outcome (list Edge) :=
  if Nat.eqb sym_length 0
  then Ok (replicate rank (mkEdge [(sym_zero, 1)] false))
  else edges_from_symmetry_and_arrow edge_symmetry edge_arrow.

(** [Tensor::one]. *)
Definition one (uninit : nat -> ScalarType) (number : ScalarType)
    (names_init : list Name) (edge_symmetry : list Sym)
    (edge_arrow : list Arrow) : M Tensor :=
  let rank := length names_init in
  let! es :=
    lift (get_edge_from_edge_symmetry_and_arrow edge_symmetry edge_arrow rank) in
  let! result := Tensor_new uninit names_init es in
  let! _ := set_front number result in
  ret result.

(** The copy constructor: one more owner of the same Core. *)
Definition Tensor_copy (t : Tensor) : M Tensor :=
  fun w =>
    match heap w !! core t with
    | Some cell =>
        (Ok t,
         mkWorld
           (<[core t := mkCell (S (use_count cell)) (cell_core cell)]> (heap w))
           (diagnostics w))
    | None => (Undefined, w)
    end.

(** Modelled from the spec: [detail::what_if_copy_shared], declared
    outside the sources. Sections 5 and 9: the write barrier emits a
    diagnostic, a warning and not an error. *)
Definition what_if_copy_shared (message : string) (w : World) : World :=
  mkWorld (heap w) (diagnostics w ++ [message])%list.

(** [Tensor::acquare_data_ownership]: the handle after the call. *)
Definition acquare_data_ownership (message : string) (t : Tensor)
    : M Tensor :=
  fun w =>
    match heap w !! core t with
    | Some cell =>
        if negb (Nat.eqb (use_count cell) 1) then
          let p := fresh (dom (heap w)) in
          let h1 := <[p := mkCell 1 (cell_core cell)]> (heap w) in
          let h2 :=
            <[core t := mkCell (use_count cell - 1) (cell_core cell)]> h1 in
          (Ok (mkTensor (names t) p),
           what_if_copy_shared message (mkWorld h2 (diagnostics w)))
        else (Ok t, w)
    | None => (Undefined, w)
    end.

(** [Tensor::transform]. *)
Definition transform (function : ScalarType -> ScalarType) (t : Tensor)
    : M Tensor :=
  let! t' := acquare_data_ownership "Set tensor shared, copy happened here" t in
  let! _ := modify_storage (fun s => Ok (map function s)) t' in
  ret t'.

(** [std::generate] with a generator of internal state [G]. *)
Fixpoint std_generate {G} (generator : G -> ScalarType * G) (g : G)
    (n : nat) : list ScalarType :=
  match n with
  | O => []
  | S n' =>
      let (x, g') := generator g in x :: std_generate generator g' n'
  end.

(** [Tensor::set]. *)
Definition set {G} (generator : G -> ScalarType * G) (g : G) (t : Tensor)
    : M Tensor :=
  let! t' := acquare_data_ownership "Set tensor shared, copy happened here" t in
  let! _ :=
    modify_storage (fun s => Ok (std_generate generator g (length s))) t' in
  ret t'.

(** [Tensor::zero]. *)
Definition zero (t : Tensor) : M Tensor :=
  set (fun u : unit => (scalar_zero, u)) tt t.

(** [Tensor::range]. *)
Definition range (first step : ScalarType) (t : Tensor) : M Tensor :=
  set (fun first => (first, scalar_add first step)) first t.

(** *** Element access *)

Definition scalar_like (c : Core) : bool := Nat.eqb (length (storage c)) 1.

(** [Tensor::const_at()] on the Core. *)
Definition core_const_at (c : Core) : Outcome ScalarType :=
  if negb (scalar_like c)
  then error "Try to get the only element of t he tensor which contains more than one element"
  else
    match storage c with
    | front :: _ => Ok front
    | [] => Undefined
    end.

Definition const_at (t : Tensor) (w : World) : Outcome ScalarType :=
  match read_core t w with
  | Ok c => core_const_at c
  | Fatal message => Fatal message
  | Undefined => Undefined
  end.

(** [explicit operator ScalarType() const]. *)
Definition to_scalar (t : Tensor) (w : World) : Outcome ScalarType :=
  const_at t w.

(** [at() const&]. *)
Definition at_const (t : Tensor) (w : World) : Outcome ScalarType :=
  const_at t w.

(** [Tensor::get_item] is declared in the header and defined elsewhere:
    the index in the storage of the element at a position, or an error. *)
Variable Position : Type.
Variable get_item : list Name -> Core -> Position -> Outcome nat.

Definition const_at_position (position : Position) (t : Tensor) (w : World)
    : Outcome ScalarType :=
  match read_core t w with
  | Ok c =>
      match get_item (names t) c position with
      | Ok i =>
          match storage c !! i with
          | Some x => Ok x
          | None => Undefined
          end
      | Fatal message => Fatal message
      | Undefined => Undefined
      end
  | Fatal message => Fatal message
  | Undefined => Undefined
  end.

Definition at_message : string :=
  "Get reference which may change of shared tensor, copy happened here, use const_at to get const reference".

(** [at() &]: the handle after the call and the reference returned. *)
Definition at_mut (t : Tensor) : M (Tensor * reference) :=
  let! t' := acquare_data_ownership at_message t in
  let! _ := read (const_at t') in
  ret (t', (core t', 0)).

(** [at(position) &], for both position types. *)
Definition at_position_mut (position : Position) (t : Tensor)
    : M (Tensor * reference) :=
  let! t' := acquare_data_ownership at_message t in
  let! c := read (read_core t') in
  let! i := lift (get_item (names t') c position) in
  ret (t', (core t', i)).

(** Assignment through a [ScalarType&]. *)
Definition assign (r : reference) (x : ScalarType) : M unit :=
  fun w =>
    match heap w !! fst r with
    | Some cell =>
        if Nat.ltb (snd r) (length (storage (cell_core cell))) then
          (Ok tt,
           mkWorld
             (<[fst r := mkCell (use_count cell)
                  (set_storage (cell_core cell)
                     (<[snd r := x]> (storage (cell_core cell))))]> (heap w))
             (diagnostics w))
        else (Undefined, w)
    | None => (Undefined, w)
    end.

(** *** The mutating members *)

(** A call of one of [transform], [set], [zero], [range], or a write
    through the reference a non-const [at] returns. *)
Inductive mutation : Type :=
| call_transform (function : ScalarType -> ScalarType)
| call_set {G : Type} (generator : G -> ScalarType * G) (g : G)
| call_zero
| call_range (first step : ScalarType)
| write_at (x : ScalarType)
| write_at_position (position : Position) (x : ScalarType).

(** The handle after the call. *)
Definition mutate (m : mutation) (t : Tensor) : M Tensor :=
  match m with
  | call_transform function => transform function t
  | call_set generator g => set generator g t
  | call_zero => zero t
  | call_range first step => range first step t
  | write_at x =>
      let! tr := at_mut t in
      let! _ := assign (snd tr) x in
      ret (fst tr)
  | write_at_position position x =>
      let! tr := at_position_mut position t in
      let! _ := assign (snd tr) x in
      ret (fst tr)
  end.

(** What a call leaves in the storage of the Core [c] it writes, for a
    tensor of the given names: the elements stored after the call, or
    the error the call ends with before it has written. *)
Definition written (m : mutation) (names : list Name) (c : Core)
    : Outcome (list ScalarType) :=
  match m with
  | call_transform function => Ok (map function (storage c))
  | call_set generator g =>
      Ok (std_generate generator g (length (storage c)))
  | call_zero => Ok (replicate (length (storage c)) scalar_zero)
  | call_range first step =>
      Ok (std_generate (fun first => (first, scalar_add first step)) first
            (length (storage c)))
  | write_at x =>
      match core_const_at c with
      | Ok _ => Ok (<[0 := x]> (storage c))
      | Fatal message => Fatal message
      | Undefined => Undefined
      end
  | write_at_position position x =>
      match get_item names c position with
      | Ok i =>
          if Nat.ltb i (length (storage c))
          then Ok (<[i := x]> (storage c))
          else Undefined
      | Fatal message => Fatal message
      | Undefined => Undefined
      end
  end.

(** The storage after the call: what it wrote, or the old elements when
    it ended with an error. *)
Definition storage_after (m : mutation) (names : list Name) (c : Core)
    : list ScalarType :=
  match written m names c with
  | Ok s => s
  | _ => storage c
  end.

(** The result of a call that returns [b] unless [o] is an error. *)
Definition outcome_with {A B} (o : Outcome A) (b : B) : Outcome B :=
  match o with
  | Ok _ => Ok b
  | Fatal message => Fatal message
  | Undefined => Undefined
  end.

(** *** Read-only members *)

Definition tensor_storage (t : Tensor) (w : World)
    : Outcome (list ScalarType) :=
  match read_core t w with
  | Ok c => Ok (storage c)
  | Fatal message => Fatal message
  | Undefined => Undefined
  end.

Definition tensor_edges (t : Tensor) (w : World) : Outcome (list Edge) :=
  match read_core t w with
  | Ok c => Ok (edges c)
  | Fatal message => Fatal message
  | Undefined => Undefined
  end.

(** [Tensor::blocks(symmetry_list) const&]. *)
Definition tensor_blocks (symmetry_list : list Sym) (t : Tensor) (w : World)
    : Outcome content_vector_t :=
  match read_core t w with
  | Ok c => core_blocks c symmetry_list
  | Fatal message => Fatal message
  | Undefined => Undefined
  end.

(** *** Edge operations *)

(** Modelled from the spec: [Tensor::edge_rename] is declared in the
    header and defined outside the sources. It is taken at
    [ResultName = Name], the default of the template and the rename of
    section 4.3 ([rename: map<Name, Name>]). Section 4.4: performs no
    data copy; returns a Tensor sharing the same Core with a new [names]
    vector; name duplication is a programming error. Section 7 makes
    duplicate names an error that is fatal to the operation; the spec
    gives no message, the one of [check_valid_name] stands for it. The
    header's comment says the same of the result: only the names change
    and the Core is shared with the original. A name the dictionary
    does not map is kept. *)
Definition renamed_names (dictionary : gmap Name Name) (names : list Name)
    : list Name :=
  map (fun name => default name (dictionary !! name)) names.

(** Modelled from the spec: see [renamed_names]. *)
Definition edge_rename (dictionary : gmap Name Name) (t : Tensor)
    : M Tensor :=
  fun w =>
    match heap w !! core t with
    | Some cell =>
        match check_duplicate (renamed_names dictionary (names t)) with
        | Ok _ =>
            (Ok (mkTensor (renamed_names dictionary (names t)) (core t)),
             mkWorld
               (<[core t := mkCell (S (use_count cell)) (cell_core cell)]>
                  (heap w))
               (diagnostics w))
        | Fatal message => (Fatal message, w)
        | Undefined => (Undefined, w)
        end
    | None => (Undefined, w)
    end.

(** [empty_list<T>]: an empty container, a type of its own that is
    neither a [std::map] nor a [std::set]. *)
Inductive empty_list (T : Type) : Type :=
| empty_list_value.

(** [Tensor::edge_operator_implement] is declared in the header and
    defined elsewhere. It is a template over the types [A] to [H] of its
    container arguments: one function for each instantiation. *)
Variable edge_operator_implement :
  forall A B C D E F G H : Type,
    A -> B -> C -> list Name -> bool -> D -> E -> F -> G -> H ->
    Tensor -> M Tensor.

(** [Tensor::edge_operator], with [std::map] as [gmap] and [std::set]
    as [gset]. *)
Definition edge_operator
    (split_map : gmap Name (list (Name * edge_segment_t)))
    (reversed_name : gset Name)
    (merge_map : gmap Name (list Name))
    (new_names : list Name)
    (apply_parity : bool)
    (parity_exclude_name_split : gset Name)
    (parity_exclude_name_reversed_before_transpose : gset Name)
    (parity_exclude_name_reversed_after_transpose : gset Name)
    (parity_exclude_name_merge : gset Name)
    (t : Tensor) : M Tensor :=
  edge_operator_implement _ _ _ _ _ _ _ _
    split_map
    reversed_name
    merge_map
    new_names
    apply_parity
    parity_exclude_name_split
    parity_exclude_name_reversed_before_transpose
    parity_exclude_name_reversed_after_transpose
    parity_exclude_name_merge
    (empty_list_value (Name * empty_list (Sym * Size)))
    t.

(** [Tensor::transpose]. *)
Definition transpose (target_names : list Name) (t : Tensor) : M Tensor :=
  edge_operator_implement _ _ _ _ _ _ _ _
    (empty_list_value (Name * empty_list (Name * edge_segment_t)))
    (empty_list_value Name)
    (empty_list_value (Name * empty_list Name))
    target_names
    false
    (empty_list_value Name)
    (empty_list_value Name)
    (empty_list_value Name)
    (empty_list_value Name)
    (empty_list_value (Name * empty_list (Sym * Size)))
    t.

End Structure.

Arguments edge_segment_t Sym : clear implicits.
Arguments Edge Sym : clear implicits.
Arguments Core Sym ScalarType : clear implicits.
Arguments Cell Sym ScalarType : clear implicits.
Arguments World Sym ScalarType : clear implicits.
Arguments M Sym ScalarType A : clear implicits.
Arguments call_transform {ScalarType Position} function.
Arguments call_set {ScalarType Position G} generator g.
Arguments call_zero {ScalarType Position}.
Arguments call_range {ScalarType Position} first step.
Arguments write_at {ScalarType Position} x.
Arguments write_at_position {ScalarType Position} position x.

Notation "'let!' x ':=' m 'in' k" := (bind m (fun x => k))
  (at level 10, x name, m at level 100, k at level 200).

(** ** Members that change the scalar type *)

Section Conversion.
Context {Sym : Type} {SymI : Symmetry Sym}.
Context {ScalarType NewScalarType : Type}.
Variable debug_mode : bool.

(** [Tensor::same_shape<NewScalarType>]: a Tensor over a fresh Core
    built from the same names and edges, in the heap of Cores of the
    new scalar type. *)
Definition same_shape (uninit : nat -> NewScalarType) (t : Tensor)
    (source : World Sym ScalarType) : M Sym NewScalarType Tensor :=
  match read_core t source with
  | Ok c => Tensor_new debug_mode uninit (names t) (edges c)
  | Fatal message => lift (Fatal message)
  | Undefined => lift Undefined
  end.

(** [std::transform(first, last, d_first, f)]: writes [last - first]
    elements from [d_first] on. *)
Definition std_transform_into (function : ScalarType -> NewScalarType)
    (src : list ScalarType) (dst : list NewScalarType)
    : Outcome (list NewScalarType) :=
  if Nat.leb (length src) (length dst)
  then Ok (map function src ++ drop (length src) dst)%list
  else Undefined.

(** [Tensor::map]. *)
Definition map_tensor (uninit : nat -> NewScalarType)
    (function : ScalarType -> NewScalarType) (t : Tensor)
    (source : World Sym ScalarType) : M Sym NewScalarType Tensor :=
  match tensor_storage t source with
  | Ok src =>
      let! result := same_shape uninit t source in
      let! _ := modify_storage (std_transform_into function src) result in
      ret result
  | Fatal message => lift (Fatal message)
  | Undefined => lift Undefined
  end.

(** [Tensor::to<OtherScalarType>] when the two scalar types differ:
    [convert] is the lambda of the [else] branch. *)
Definition to_other (uninit : nat -> NewScalarType)
    (convert : ScalarType -> NewScalarType) (t : Tensor)
    (source : World Sym ScalarType) : M Sym NewScalarType Tensor :=
  map_tensor uninit convert t source.

End Conversion.


(** The lambda of [to] for a complex source and a real target:
    [OtherScalarType(input.real())]. *)
Definition real_of_complex (input : complex) : R := complex_real input.

(** [Tensor<std::complex<double>>::to<double>]. *)
Definition to_real {Sym : Type} {SymI : Symmetry Sym} (debug_mode : bool)
    (uninit : nat -> R) (t : Tensor) (source : World Sym complex)
    : M Sym R Tensor :=
  to_other debug_mode uninit real_of_complex t source.

(** [Tensor::copy]. *)
Definition copy {Sym : Type} {SymI : Symmetry Sym} {ScalarType : Type}
    (debug_mode : bool) (uninit : nat -> ScalarType) (t : Tensor)
    : M Sym ScalarType Tensor :=
  fun w => map_tensor debug_mode uninit (fun x => x) t w w.

(** ** Further members of the Tensor *)

(** [std::find] over the name list: the position of the first element
    equal to [name], [None] for [names.end()]. *)
Fixpoint std_find (names : list Name) (name : Name) : option nat :=
  match names with
  | [] => None
  | n :: rest =>
      if String.eqb n name then Some 0
      else
        match std_find rest name with
        | Some r => Some (S r)
        | None => None
        end
  end.

(** [Tensor::find_rank_from_name]. *)
Definition find_rank_from_name (t : Tensor) (name : Name) : option nat :=
  std_find (names t) name.

(** [Tensor::get_rank_from_name]. *)
Definition get_rank_from_name (t : Tensor) (name : Name) : Outcome Rank :=
  match find_rank_from_name t name with
  | None => error "No such name in name list"
  | Some r => Ok r
  end.

Section Members.
Context {Sym : Type} {SymI : Symmetry Sym}.
Context {ScalarType : Type} {ScalarI : Scalar ScalarType}.
Context {AbsI : Absolute ScalarType}.

(** [edges(Rank r) const&]: [core->edges[r]], undefined past the end. *)
Definition edges_at (r : Rank) (t : Tensor) (w : World Sym ScalarType)
    : Outcome (Edge Sym) :=
  match read_core t w with
  | Ok c =>
      match edges c !! r with
      | Some e => Ok e
      | None => Undefined
      end
  | Fatal message => Fatal message
  | Undefined => Undefined
  end.

(** [edges(const Name& name) const&]. *)
Definition edges_by_name (name : Name) (t : Tensor) (w : World Sym ScalarType)
    : Outcome (Edge Sym) :=
  match get_rank_from_name t name with
  | Ok r => edges_at r t w
  | Fatal message => Fatal message
  | Undefined => Undefined
  end.

(** The loop of [blocks(const std::map<Name, Symmetry>&)]: one
    [symmetry_map.at(name)] per name of the tensor, in the order of the
    names; [std::map::at] throws [std::out_of_range] on a missing key. *)
Fixpoint symmetry_list_of (names : list Name) (symmetry_map : gmap Name Sym)
    : Outcome (list Sym) :=
  match names with
  | [] => Ok []
  | name :: rest =>
      match symmetry_map !! name with
      | None => Fatal "map::at"
      | Some q =>
          match symmetry_list_of rest symmetry_map with
          | Ok l => Ok (q :: l)
          | o => o
          end
      end
  end.

(** [blocks(const std::map<Name, Symmetry>& symmetry_map) const&]. *)
Definition tensor_blocks_by_name (symmetry_map : gmap Name Sym) (t : Tensor)
    (w : World Sym ScalarType) : Outcome content_vector_t :=
  match symmetry_list_of (names t) symmetry_map with
  | Ok symmetry_list => tensor_blocks symmetry_list t w
  | Fatal message => Fatal message
  | Undefined => Undefined
  end.

(** [Tensor::norm<-1>]: the largest absolute value. *)
Definition core_norm_max (c : Core Sym ScalarType) : R :=
  fold_left
    (fun result number =>
       if Rlt_dec result (std_abs number) then std_abs number else result)
    (storage c) 0%R.

(** [Tensor::norm<-1>() const]. *)
Definition norm_max (t : Tensor) (w : World Sym ScalarType) : Outcome R :=
  match read_core t w with
  | Ok c => Ok (core_norm_max c)
  | Fatal message => Fatal message
  | Undefined => Undefined
  end.

End Members.

(** The lambda of [to] for a real source and a complex target:
    [OtherScalarType(input)]. *)
Definition complex_of_real (input : R) : complex := (input, 0%R).

(** [Tensor<double>::to<std::complex<double>>]. *)
Definition to_complex {Sym : Type} {SymI : Symmetry Sym} (debug_mode : bool)
    (uninit : nat -> complex) (t : Tensor) (source : World Sym R)
    : M Sym complex Tensor :=
  to_other debug_mode uninit complex_of_real t source.

(** ** The 2-norm of a tensor of [double]s *)


Section Norm2.
Context {Sym : Type}.

(** [std::pow] of the C library, which is not part of the sources. *)
Variable std_pow : double -> double -> double.



End Norm2.

(** ** Predicates of the specification *)

(** [k] splits [v]: [less] holds before [k] and fails from [k] on. *)
Definition partition_point {A} (v : list A) (less : A -> bool) (k : nat)
    : Prop :=
  k <= length v /\
  (forall i x, v !! i = Some x -> i < k -> less x = true) /\
  (forall i x, v !! i = Some x -> k <= i -> less x = false).

Section Predicates.
Context {Sym : Type} {SymI : Symmetry Sym}.

(** The block list is sorted by key, strictly: a sorted map. *)
Definition blocks_sorted {B} (v : list (list Sym * B)) : Prop :=
  StronglySorted
    (fun a b => lexicographical_compare (fst a) (fst b) = true) v.

(** No block comes before one with a smaller key. *)
Definition blocks_ordered {B} (v : list (list Sym * B)) : Prop :=
  StronglySorted
    (fun a b => lexicographical_compare (fst b) (fst a) = false) v.





End Predicates.









(** What a member does after the write barrier: it writes the storage of
    the Core of its handle without resizing it, keeps that handle, and
    touches nothing else. *)
Definition writes_own_storage {Sym ScalarType : Type}
    (body : Tensor -> M Sym ScalarType Tensor) : Prop :=
  forall (t : Tensor) (w : World Sym ScalarType) (cell : Cell Sym ScalarType),
    heap w !! core t = Some cell ->
    exists r s,
      body t w =
        (r, mkWorld
              (<[core t := mkCell (use_count cell)
                              (set_storage (cell_core cell) s)]> (heap w))
              (diagnostics w)) /\
      length s = length (storage (cell_core cell)) /\
      (forall t', r = Ok t' -> t' = t).

(** ** Tensors of the test files *)

(** The tensor of [test_create_fermi_tensor.basic_usage]. *)
Definition basic_usage_edges : list (Edge bool) :=
  [ mkEdge [(true, 3); (false, 1)] true;
    mkEdge [(true, 1); (false, 2)] false;
    mkEdge [(true, 2); (false, 3)] true ].

Definition basic_usage_core : Core bool R :=
  Core_make (fun _ => 0%R) basic_usage_edges.

Definition basic_usage_world : World bool R :=
  mkWorld {[ 1%positive := mkCell 1 basic_usage_core ]} [].

Definition basic_usage_tensor : Tensor :=
  mkTensor ["Left"; "Right"; "Up"] 1%positive.

Definition empty_world : World Z R := mkWorld ∅ [].

Definition zero_fill : nat -> R := fun _ => 0%R.


Definition unit_edge : Edge Z := mkEdge [(0%Z, 1)] false.

(** The tensor of [test_create_fermi_tensor.conversion_scalar_empty]: one
    edge with the single charge [+1] allows no block. *)
Definition conversion_scalar_empty_world : World Z R :=
  snd (Tensor_new true zero_fill ["i"] [mkEdge [(1%Z, 2333)] false] empty_world).

Definition three_four_world : World Z R :=
  mkWorld {[ 1%positive := mkCell 1 (mkCore [] [] [3%R; 4%R]) ]} [].

(** [t1] of [test_edge_rename], its charges as booleans. *)
Definition rename_edges : list (Edge bool) :=
  [ mkEdge [(false, 1); (true, 2)] false;
    mkEdge [(false, 3); (true, 4)] false;
    mkEdge [(false, 5); (true, 6)] false ].

(** Fresh storage of [double]s. *)
Definition double_fill : nat -> double := fun _ => 0%float.

Definition rename_core : Core bool double :=
  Core_make double_fill rename_edges.

Definition rename_t1 : Tensor := mkTensor ["Left"; "Right"; "Phy"] 1%positive.

Definition rename_world : World bool double :=
  mkWorld {[ 1%positive := mkCell 1 rename_core ]} [].

(** [t2 = t1.edge_rename({{Left, Up}})] of [test_edge_rename], and the
    world after that call: two handles on one Core. *)
Definition rename_t2 : Tensor := mkTensor ["Up"; "Right"; "Phy"] 1%positive.

Definition shared_world : World bool double :=
  snd (edge_rename {[ "Left" := "Up" ]} rename_t1 rename_world).

(** The generator of [test_edge_rename]: [static int i = 0; return i++]. *)
Definition counter (i : nat) : double * nat :=
  (PrimFloat.of_uint63 (Uint63.of_Z (Z.of_nat i)), S i).

(** A [get_item] to run the members on: every position is the first
    element. *)
Definition first_item
    : list Name -> Core bool double -> unit -> Outcome nat :=
  fun _ _ _ => Ok 0.



(** The edges of [test_create_fermi_tensor.when_0size]. *)
Definition when_0size_edges : list (Edge Z) :=
  [ mkEdge [(0%Z, 0)] false;
    mkEdge [((-1)%Z, 1); (0%Z, 2); (1%Z, 3)] true;
    mkEdge [((-1)%Z, 2); (0%Z, 3); (1%Z, 1)] true ].

(** A rank-0 tensor holding [5] whose Core two handles share. *)
Definition scalar_shared_world : World bool double :=
  mkWorld
    {[ 1%positive := mkCell 2 (mkCore [] [([], mkContent 0 1)] [5%float]) ]}
    [].

(** A real tensor of one edge of dimension 2, holding [3] and [4]. *)
Definition real_pair_core : Core Z R :=
  mkCore [mkEdge [(0%Z, 2)] false] [([0%Z], mkContent 0 2)] [3%R; 4%R].

Definition real_pair_world : World Z R :=
  mkWorld {[ 1%positive := mkCell 1 real_pair_core ]} [].

Definition empty_complex_world : World Z complex := mkWorld ∅ [].

Set Warnings "-inexact-float".






(** A [double] tensor of one edge of dimension 3. *)
Definition double_core : Core Z double :=
  mkCore [mkEdge [(0%Z, 3)] false] [([0%Z], mkContent 0 3)]
         [0%float; 0%float; 0%float].

Definition double_world : World Z double :=
  mkWorld {[ 1%positive := mkCell 1 double_core ]} [].

Definition complex_zero_fill : nat -> complex := fun _ => (0%R, 0%R).

(** * Properties *)

(** ** The order on symmetry tuples *)

Section LexicographicOrder.
Context {Sym : Type} {SymI : Symmetry Sym}.

Lemma lexicographical_compare_irrefl (a : list Sym) :
  lexicographical_compare a a = false.
Proof.
  induction a as [|x a IH]; simpl; [reflexivity|].
  rewrite sym_ltb_irrefl. exact IH.
Qed.

Lemma lexicographical_compare_trans (a b c : list Sym) :
  lexicographical_compare a b = true ->
  lexicographical_compare b c = true ->
  lexicographical_compare a c = true.
Proof.
  revert b c. induction a as [|x a IH]; intros [|y b] [|z c]; simpl;
    try congruence.
  destruct (sym_ltb x y) eqn:Hxy.
  - intros _. destruct (sym_ltb y z) eqn:Hyz.
    + intros _. now rewrite (sym_ltb_trans _ _ _ Hxy Hyz).
    + destruct (sym_ltb z y) eqn:Hzy; [congruence|].
      intros _. rewrite <- (sym_ltb_total _ _ Hyz Hzy). now rewrite Hxy.
  - destruct (sym_ltb y x) eqn:Hyx; [congruence|].
    pose proof (sym_ltb_total _ _ Hxy Hyx) as ->.
    destruct (sym_ltb y z); [reflexivity|].
    destruct (sym_ltb z y); [congruence|]. apply IH.
Qed.

Lemma lexicographical_compare_total (a b : list Sym) :
  lexicographical_compare a b = false ->
  lexicographical_compare b a = false ->
  a = b.
Proof.
  revert b. induction a as [|x a IH]; intros [|y b]; simpl;
    try congruence.
  destruct (sym_ltb x y) eqn:Hxy; [congruence|].
  destruct (sym_ltb y x) eqn:Hyx; [congruence|].
  intros H1 H2. rewrite (sym_ltb_total _ _ Hxy Hyx). f_equal. now apply IH.
Qed.

Lemma lexicographical_compare_le_lt (a b c : list Sym) :
  lexicographical_compare b a = false ->
  lexicographical_compare b c = true ->
  lexicographical_compare a c = true.
Proof.
  intros Hba Hbc. destruct (lexicographical_compare a b) eqn:Hab.
  - eapply lexicographical_compare_trans; eassumption.
  - now rewrite (lexicographical_compare_total _ _ Hab Hba).
Qed.

Lemma std_equal_eq (a b : list Sym) : std_equal a b = true <-> a = b.
Proof.
  revert b. induction a as [|x a IH]; intros [|y b]; simpl;
    try (split; congruence).
  rewrite andb_true_iff, sym_eqb_eq, IH. split.
  - intros [-> ->]. reflexivity.
  - intros E. injection E. auto.
Qed.

End LexicographicOrder.

(** ** Bisection *)

Section Bisection.
Context {A : Type} (v : list A) (less : A -> bool).

Lemma lower_bound_loop_partitioned (k fuel first len : nat) :
  partition_point v less k ->
  len <= fuel -> first <= k -> k <= first + len ->
  first + len <= length v ->
  lower_bound_loop fuel v less first len = k.
Proof.
  intros (Hk & Hlt & Hge). revert first len.
  induction fuel as [|fuel IH]; intros first len Hfuel Hlo Hhi Hlen; simpl.
  - lia.
  - destruct (Nat.eqb_spec len 0) as [->|Hpos]; [clear IH; lia|].
    assert (Hhalf : Nat.div2 len < len) by (apply Nat.lt_div2; lia).
    set (half := Nat.div2 len) in *. clearbody half.
    destruct (lookup_lt_is_Some_2 v (first + half)) as [x Hx];
      [clear IH; lia|].
    rewrite Hx. destruct (less x) eqn:Hless.
    + assert (Hb : first + half < k).
      { destruct (le_lt_dec k (first + half)) as [Hle|]; [|assumption].
        rewrite (Hge _ _ Hx Hle) in Hless. discriminate. }
      apply IH; clear IH; lia.
    + assert (Hb : k <= first + half).
      { destruct (le_lt_dec k (first + half)) as [|Hgt]; [assumption|].
        rewrite (Hlt _ _ Hx Hgt) in Hless. discriminate. }
      apply IH; clear IH; lia.
Qed.

Lemma lower_bound_partitioned (k : nat) :
  partition_point v less k -> lower_bound v less = k.
Proof.
  intros Hp. unfold lower_bound.
  apply lower_bound_loop_partitioned; try lia; try assumption.
  destruct Hp as [? _]. lia.
Qed.

End Bisection.

(** ** Block lookup *)

Lemma StronglySorted_lookup_lt {A} (Rel : A -> A -> Prop) (v : list A)
    (i j : nat) (a b : A) :
  StronglySorted Rel v -> i < j ->
  v !! i = Some a -> v !! j = Some b -> Rel a b.
Proof.
  intros Hs. revert i j a b.
  induction Hs as [|x v Hs IH Hall]; intros i j a b Hij Hi Hj.
  - discriminate.
  - destruct j as [|j]; [lia|]. destruct i as [|i]; simpl in *.
    + injection Hi as <-. rewrite Forall_forall in Hall. apply Hall.
      eapply list_elem_of_lookup_2. exact Hj.
    + apply (IH i j); [lia | assumption | assumption].
Qed.

Section OrderedBlocks.
Context {Sym : Type} {SymI : Symmetry Sym} {B : Type}.
Implicit Types (v : list (list Sym * B)) (key : list Sym).


Lemma blocks_sorted_ordered v : blocks_sorted v -> blocks_ordered v.
Proof.
  unfold blocks_sorted, blocks_ordered.
  induction 1 as [|x v Hs IH Hall]; constructor; [assumption|].
  rewrite Forall_forall in *. intros b Hb.
  destruct (lexicographical_compare (fst b) (fst x)) eqn:E; [|reflexivity].
  pose proof (lexicographical_compare_trans _ _ _ (Hall b Hb) E) as Hxx.
  rewrite lexicographical_compare_irrefl in Hxx. discriminate.
Qed.

Lemma blocks_ordered_partition v key :
  blocks_ordered v ->
  exists k,
    partition_point v (fun a => lexicographical_compare (fst a) key) k.
Proof.
  induction 1 as [|x v Hs IH Hall].
  - exists 0. repeat split; [simpl; lia | |]; intros i y Hy; discriminate.
  - destruct (lexicographical_compare (fst x) key) eqn:Hx.
    + destruct IH as (k & Hk & Hlt & Hge). exists (S k). repeat split.
      * simpl. lia.
      * intros [|i] y Hy Hi; simpl in Hy.
        -- now injection Hy as <-.
        -- apply (Hlt i); [assumption | lia].
      * intros [|i] y Hy Hi; [lia|]. apply (Hge i); [assumption | lia].
    + exists 0. repeat split; [lia | intros; lia |].
      intros [|i] y Hy _; simpl in Hy.
      * now injection Hy as <-.
      * rewrite Forall_forall in Hall.
        assert (Hin : y ∈ v).
        { eapply list_elem_of_lookup_2. exact Hy. }
        destruct (lexicographical_compare (fst y) key) eqn:E; [|reflexivity].
        rewrite (lexicographical_compare_le_lt _ _ _ (Hall y Hin) E) in Hx.
        discriminate.
Qed.

Lemma blocks_sorted_unique v i j a b :
  blocks_sorted v -> v !! i = Some a -> v !! j = Some b ->
  fst a = fst b -> i = j.
Proof.
  intros Hs Hi Hj Hab.
  destruct (Nat.lt_total i j) as [Hlt|[->|Hlt]]; [|reflexivity|].
  - pose proof (StronglySorted_lookup_lt _ _ _ _ _ _ Hs Hlt Hi Hj) as Hc.
    simpl in Hc. rewrite Hab, lexicographical_compare_irrefl in Hc.
    discriminate.
  - pose proof (StronglySorted_lookup_lt _ _ _ _ _ _ Hs Hlt Hj Hi) as Hc.
    simpl in Hc. rewrite Hab, lexicographical_compare_irrefl in Hc.
    discriminate.
Qed.

End OrderedBlocks.

Section BlockLookup.
Context {Sym : Type} {SymI : Symmetry Sym} {ScalarType : Type}.
Implicit Types (c : Core Sym ScalarType) (key : list Sym).

Lemma find_block_sound c key k :
  find_block c key = Some k ->
  exists b, blocks c !! k = Some b /\ fst b = key.
Proof.
  unfold find_block.
  destruct (Nat.eqb _ (length (blocks c))); [discriminate|].
  destruct (blocks c !! _) as [found|] eqn:E; [|discriminate].
  destruct (std_equal (fst found) key) eqn:Heq; [|discriminate].
  intros [= <-]. exists found. split; [exact E|]. now apply std_equal_eq.
Qed.

Lemma find_block_complete c key b :
  blocks_ordered (blocks c) -> In b (blocks c) -> fst b = key ->
  exists k b',
    find_block c key = Some k /\ blocks c !! k = Some b' /\ fst b' = key.
Proof.
  intros Hord Hin Hkey.
  destruct (blocks_ordered_partition _ key Hord) as (k & Hp).
  pose proof (lower_bound_partitioned _ _ _ Hp) as Hlb.
  destruct Hp as (Hk & Hlt & Hge).
  apply list_elem_of_In, list_elem_of_lookup_1 in Hin. destruct Hin as [j Hj].
  assert (Hkj : k <= j).
  { destruct (le_lt_dec k j) as [|Hgt]; [assumption|].
    pose proof (Hlt _ _ Hj Hgt) as Hc. simpl in Hc.
    rewrite Hkey, lexicographical_compare_irrefl in Hc. discriminate. }
  assert (Hjlen : j < length (blocks c)) by (eapply lookup_lt_Some; eassumption).
  destruct (lookup_lt_is_Some_2 (blocks c) k) as [b' Hb']; [lia|].
  assert (Hb'key : fst b' = key).
  { destruct (Nat.eq_dec k j) as [->|Hne]; [congruence|].
    apply lexicographical_compare_total.
    - exact (Hge _ _ Hb' (Nat.le_refl k)).
    - rewrite <- Hkey.
      apply (StronglySorted_lookup_lt _ _ k j b' b Hord); [lia | assumption | assumption]. }
  exists k, b'. split; [|split; assumption].
  unfold find_block. rewrite Hlb.
  destruct (Nat.eqb_spec k (length (blocks c))) as [E|_]; [lia|].
  rewrite Hb'. apply std_equal_eq in Hb'key. now rewrite Hb'key.
Qed.

(** C6. For a tensor whose Core keeps its block list sorted by key,
    [blocks(key)] returns the content of the one block whose tuple is
    [key] when there is such a block, and raises the fatal error
    [No such symmetry block in the tensor] when there is none; the
    call is a read and leaves the world and the handle as they were. *)
Theorem blocks_lookup_sorted (t : Tensor) (w : World Sym ScalarType) c key :
  read_core t w = Ok c ->
  blocks_sorted (blocks c) ->
  (forall b, In b (blocks c) -> fst b = key ->
     tensor_blocks key t w = Ok (snd b) /\
     (forall b', In b' (blocks c) -> fst b' = key -> b' = b)) /\
  ((forall b, In b (blocks c) -> fst b <> key) ->
     tensor_blocks key t w =
       Fatal "No such symmetry block in the tensor") /\
  read (tensor_blocks key t) w = (tensor_blocks key t w, w).
Proof.
  intros Hc Hs. split; [|split; [|reflexivity]];
    unfold tensor_blocks; rewrite Hc.
  - intros b Hin Hkey.
    assert (Huniq : forall b', In b' (blocks c) -> fst b' = key -> b' = b).
    { intros b' Hin' Hkey'.
      apply list_elem_of_In, list_elem_of_lookup_1 in Hin, Hin'.
      destruct Hin as [i Hi], Hin' as [j Hj].
      assert (j = i) as ->
        by (eapply blocks_sorted_unique; eauto; congruence).
      congruence. }
    split; [|exact Huniq].
    destruct (find_block_complete c key b (blocks_sorted_ordered _ Hs) Hin Hkey)
      as (k & b' & Hfind & Hk & Hkey').
    unfold core_blocks. rewrite Hfind, Hk. f_equal. f_equal.
    apply Huniq; [|assumption].
    apply list_elem_of_In. eapply list_elem_of_lookup_2. exact Hk.
  - intros Hnone. unfold core_blocks.
    destruct (find_block c key) as [k|] eqn:Hfind; [|reflexivity].
    destruct (find_block_sound c key k Hfind) as (b & Hk & Hkey).
    exfalso. apply (Hnone b); [|assumption].
    apply list_elem_of_In. eapply list_elem_of_lookup_2. exact Hk.
Qed.

End BlockLookup.

Lemma blocks_lookup_sorted_witness :
  tensor_blocks [true; false; true] basic_usage_tensor basic_usage_world
    = Ok (mkContent 9 12) /\
  tensor_blocks [true; true; true] basic_usage_tensor basic_usage_world
    = Fatal "No such symmetry block in the tensor".
Proof.
  assert (Hs : blocks_sorted (blocks basic_usage_core)).
  { unfold blocks_sorted. simpl. repeat constructor. }
  split.
  - apply (blocks_lookup_sorted basic_usage_tensor basic_usage_world basic_usage_core
             [true; false; true] eq_refl Hs)
      with (b := ([true; false; true], mkContent 9 12)).
    + simpl. tauto.
    + reflexivity.
  - apply (blocks_lookup_sorted basic_usage_tensor basic_usage_world basic_usage_core
             [true; true; true] eq_refl Hs).
    intros b Hin. simpl in Hin.
    repeat (destruct Hin as [<-|Hin]; [discriminate|]). destruct Hin.
Defined.

(** ** Core construction *)

Section CoreConstruction.
Context {Sym : Type} {SymI : Symmetry Sym} {ScalarType : Type}.
Implicit Types (es : list (Edge Sym)) (qs : list Sym) (ds : list Size).
Implicit Types (l : list (list Sym * list Size)).

















End CoreConstruction.

(** The constructor against the assertions of
    [test_create_fermi_tensor.basic_usage]: the four blocks and their
    volumes, laid out in the order the test lists them ([1 1 0] first,
    [1 0 1] from offset [3 * 1 * 3], ...), found through an index
    sorted by the tuple; and the storage size. *)
Example basic_usage_blocks :
  blocks (Core_make zero_fill basic_usage_edges)
    = [ ([false; false; false],
         mkContent (3 * 1 * 3 + 3 * 2 * 2 + 1 * 1 * 2) (1 * 2 * 3));
        ([false; true; true], mkContent (3 * 1 * 3 + 3 * 2 * 2) (1 * 1 * 2));
        ([true; false; true], mkContent (3 * 1 * 3) (3 * 2 * 2));
        ([true; true; false], mkContent 0 (3 * 1 * 3)) ] /\
  length (storage (Core_make zero_fill basic_usage_edges))
    = 1 * 2 * 3 + 1 * 1 * 2 + 3 * 2 * 2 + 3 * 1 * 3.
Proof. split; reflexivity. Qed.

(** The constructor against [test_create_fermi_tensor.when_0size]: three
    blocks of volume 0 and an empty storage. *)
Example when_0size_blocks :
  map (fun b => (fst b, content_size (snd b)))
      (blocks (Core_make zero_fill when_0size_edges))
    = [ ([0%Z; (-1)%Z; 1%Z], 0); ([0%Z; 0%Z; 0%Z], 0);
        ([0%Z; 1%Z; (-1)%Z], 0) ] /\
  storage (Core_make zero_fill when_0size_edges) = [].
Proof. split; reflexivity. Qed.

(** ** Construction *)

Section Construction.
Context {Sym : Type} {SymI : Symmetry Sym}.
Context {ScalarType : Type} {ScalarI : Scalar ScalarType}.
Implicit Types (w : World Sym ScalarType) (t : Tensor).
Implicit Types (es : list (Edge Sym)) (uninit : nat -> ScalarType).

Lemma fresh_lookup w : heap w !! fresh (dom (heap w)) = None.
Proof. apply not_elem_of_dom, is_fresh. Qed.

Lemma existsb_eqb_In (i : Name) (rest : list Name) :
  existsb (String.eqb i) rest = true <-> In i rest.
Proof.
  rewrite existsb_exists. split.
  - intros (x & Hin & Heq). apply String.eqb_eq in Heq. now subst.
  - intros Hin. exists i. split; [assumption | apply String.eqb_refl].
Qed.

Lemma check_duplicate_NoDup (names : list Name) :
  List.NoDup names -> check_duplicate names = Ok true.
Proof.
  induction 1 as [|i rest Hnot Hnd IH]; simpl; [reflexivity|].
  destruct (existsb (String.eqb i) rest) eqn:E; [|exact IH].
  apply existsb_eqb_In in E. contradiction.
Qed.

Lemma check_duplicate_dup (names : list Name) :
  ~ List.NoDup names ->
  check_duplicate names = Fatal "Duplicated names in name list".
Proof.
  induction names as [|i rest IH]; simpl; intros Hdup.
  - exfalso. apply Hdup. constructor.
  - destruct (existsb (String.eqb i) rest) eqn:E; [reflexivity|].
    apply IH. intros Hnd. apply Hdup. constructor; [|assumption].
    intros Hin. apply existsb_eqb_In in Hin. congruence.
Qed.

Lemma Tensor_new_release uninit names_init es w :
  Tensor_new false uninit names_init es w =
    (Ok (mkTensor names_init (fresh (dom (heap w)))),
     mkWorld
       (<[fresh (dom (heap w)) := mkCell 1 (Core_make uninit es)]> (heap w))
       (diagnostics w)).
Proof. reflexivity. Qed.

Lemma Tensor_new_valid debug_mode uninit names_init es w :
  length names_init = length es -> List.NoDup names_init ->
  Tensor_new debug_mode uninit names_init es w =
    (Ok (mkTensor names_init (fresh (dom (heap w)))),
     mkWorld
       (<[fresh (dom (heap w)) := mkCell 1 (Core_make uninit es)]> (heap w))
       (diagnostics w)).
Proof.
  intros Hlen Hnd. unfold Tensor_new, check_valid_name. simpl.
  rewrite Hlen, Nat.eqb_refl. simpl.
  rewrite (check_duplicate_NoDup _ Hnd). now destruct debug_mode.
Qed.

Lemma Tensor_new_invalid uninit names_init es w :
  length names_init <> length es \/ ~ List.NoDup names_init ->
  exists message, Tensor_new true uninit names_init es w = (Fatal message, w).
Proof.
  intros Hbad. unfold Tensor_new, check_valid_name. simpl.
  assert (Hw : mkWorld
            (delete (fresh (dom (heap w)))
               (<[fresh (dom (heap w)) := mkCell 1 (Core_make uninit es)]>
                  (heap w)))
            (diagnostics w) = w).
  { rewrite delete_insert_id by apply fresh_lookup. now destruct w. }
  destruct (Nat.eqb_spec (length names_init) (length es)) as [Hlen|Hlen];
    simpl.
  - destruct Hbad as [Hbad|Hbad]; [contradiction|].
    rewrite (check_duplicate_dup _ Hbad), Hw. eauto.
  - unfold error. rewrite Hw. eauto.
Qed.


End Construction.

Section ConstructionProperties.
Context {Sym : Type} {SymI : Symmetry Sym}.
Context {ScalarType : Type} {ScalarI : Scalar ScalarType}.
Implicit Types (w : World Sym ScalarType) (t : Tensor).
Implicit Types (es : list (Edge Sym)) (uninit : nat -> ScalarType).


Lemma allowed_blocks_nil : allowed_blocks (@nil (Edge Sym)) = [([], [])].
Proof.
  unfold allowed_blocks. simpl. unfold conserved. simpl.
  now rewrite (proj2 (sym_eqb_eq sym_zero sym_zero) eq_refl).
Qed.

(** C9. The default constructor gives a rank-0 tensor, with no name
    and no edge, whose storage holds exactly one scalar, and that
    scalar is [1], which is not [0], whatever the fresh memory held. *)
Theorem Tensor_default_one debug_mode uninit w :
  exists t w',
    Tensor_default debug_mode uninit w = (Ok t, w') /\
    names t = [] /\ get_rank t = 0 /\
    tensor_edges t w' = Ok [] /\
    tensor_storage t w' = Ok [scalar_one] /\
    @scalar_one ScalarType _ <> scalar_zero.
Proof.
  unfold Tensor_default, Tensor_of_number, bind.
  rewrite Tensor_new_valid by (reflexivity || constructor).
  unfold set_front, modify_storage. simpl heap.
  rewrite lookup_insert_eq. simpl.
  rewrite allowed_blocks_nil. simpl.
  eexists _, _. split; [reflexivity|].
  unfold tensor_edges, tensor_storage, read_core. simpl.
  rewrite lookup_insert_eq. simpl.
  repeat split; try reflexivity. apply scalar_one_nonzero.
Qed.

(** C7, amended. With [debug_mode] on, constructing a Tensor raises a
    fatal error and leaves the world as it was when the name list's
    length differs from the number of edges or two names are equal, and
    otherwise succeeds with a rank equal to the common length. With
    [debug_mode] off nothing is checked: the construction succeeds and
    the rank is the length of the name list. *)
Theorem Tensor_new_check uninit names_init es w :
  (length names_init <> length es \/ ~ List.NoDup names_init ->
     exists message,
       Tensor_new true uninit names_init es w = (Fatal message, w)) /\
  (length names_init = length es /\ List.NoDup names_init ->
     exists t w',
       Tensor_new true uninit names_init es w = (Ok t, w') /\
       get_rank t = length es /\ tensor_edges t w' = Ok es) /\
  (exists t w',
     Tensor_new false uninit names_init es w = (Ok t, w') /\
     get_rank t = length names_init /\ tensor_edges t w' = Ok es).
Proof.
  split; [apply Tensor_new_invalid|]. split.
  - intros [Hlen Hnd]. eexists _, _.
    split; [apply Tensor_new_valid; assumption|].
    split; [exact Hlen|].
    unfold tensor_edges, read_core. simpl. now rewrite lookup_insert_eq.
  - eexists _, _. split; [apply Tensor_new_release|].
    split; [reflexivity|].
    unfold tensor_edges, read_core. simpl. now rewrite lookup_insert_eq.
Qed.

End ConstructionProperties.


Lemma Tensor_new_check_witness :
  (exists message,
     Tensor_new true zero_fill ["i"; "i"] [unit_edge; unit_edge] empty_world
       = (Fatal message, empty_world)) /\
  (exists t w',
     Tensor_new true zero_fill ["i"; "j"] [unit_edge; unit_edge] empty_world
       = (Ok t, w') /\
     get_rank t = 2 /\ tensor_edges t w' = Ok [unit_edge; unit_edge]).
Proof.
  split.
  - apply (proj1 (Tensor_new_check zero_fill ["i"; "i"]
                    [unit_edge; unit_edge] empty_world)).
    right. intros Hnd. inversion Hnd as [|? ? Hnot _]. apply Hnot. now left.
  - apply (proj1 (proj2 (Tensor_new_check zero_fill ["i"; "j"]
                           [unit_edge; unit_edge] empty_world))).
    split; [reflexivity|].
    repeat constructor; simpl; intuition discriminate.
Defined.

(** C7 as stated fails with [debug_mode] off: two equal names, or a name
    list shorter than the edge list, construct a Tensor. *)
Lemma Tensor_new_unchecked_counterexample :
  (exists t w',
     Tensor_new false zero_fill ["i"; "i"] [unit_edge; unit_edge] empty_world
       = (Ok t, w') /\
     ~ List.NoDup (names t)) /\
  (exists t w',
     Tensor_new false zero_fill ["i"] [unit_edge; unit_edge] empty_world
       = (Ok t, w') /\
     tensor_edges t w' = Ok [unit_edge; unit_edge] /\
     get_rank t = 1).
Proof.
  split.
  - eexists _, _. split; [reflexivity|]. simpl.
    intros Hnd. inversion Hnd as [|? ? Hnot _]. apply Hnot. now left.
  - eexists _, _. split; [reflexivity|]. split; reflexivity.
Qed.

(** ** Scalar conversion *)

Section Reading.
Context {Sym : Type} {SymI : Symmetry Sym}.
Context {ScalarType : Type} {ScalarI : Scalar ScalarType}.
Implicit Types (w : World Sym ScalarType) (t : Tensor).
Implicit Types (c : Core Sym ScalarType).

(** C5. The scalar conversion, which is [const_at()], returns the one
    stored scalar exactly when the storage length is 1; for any other
    length, 0 included, it is the fatal error and gives no value. *)
Theorem scalar_conversion t w c :
  read_core t w = Ok c ->
  to_scalar t w = const_at t w /\
  (length (storage c) = 1 ->
     exists x, storage c = [x] /\ to_scalar t w = Ok x) /\
  (length (storage c) <> 1 ->
     to_scalar t w =
       Fatal "Try to get the only element of t he tensor which contains more than one element") /\
  (is_ok (to_scalar t w) <-> length (storage c) = 1).
Proof.
  intros Hc. unfold to_scalar, const_at, core_const_at, scalar_like.
  rewrite Hc. split; [reflexivity|].
  destruct (Nat.eqb_spec (length (storage c)) 1) as [Hlen|Hlen]; simpl.
  - destruct (storage c) as [|x [|y s]] eqn:Hs; try discriminate.
    split; [intros _; exists x; split; reflexivity|].
    split; [intros Hne; contradiction|].
    split; [reflexivity | intros _; exists x; reflexivity].
  - split; [intros; contradiction|]. split; [reflexivity|].
    split; [intros [x Hx]; discriminate | intros; contradiction].
Qed.

End Reading.

(** ** The 2-norm *)

Section Norm2Properties.
Context {Sym : Type}.
Variable std_pow : double -> double -> double.
Implicit Types (w : World Sym double) (t : Tensor) (c : Core Sym double).



End Norm2Properties.

Lemma scalar_conversion_witness :
  tensor_storage (mkTensor ["i"] 1%positive) conversion_scalar_empty_world
    = Ok [] /\
  to_scalar (mkTensor ["i"] 1%positive) conversion_scalar_empty_world
    = Fatal "Try to get the only element of t he tensor which contains more than one element".
Proof.
  split; [reflexivity|].
  apply (scalar_conversion (mkTensor ["i"] 1%positive)
           conversion_scalar_empty_world
           (Core_make zero_fill [mkEdge [(1%Z, 2333)] false]) eq_refl).
  simpl. discriminate.
Defined.



(** ** Copy on write *)

Section CopyOnWrite.
Context {Sym : Type} {SymI : Symmetry Sym}.
Context {ScalarType : Type} {ScalarI : Scalar ScalarType}.
Context {Position : Type}.
Variable get_item :
  list Name -> Core Sym ScalarType -> Position -> Outcome nat.
Implicit Types (w : World Sym ScalarType) (t : Tensor).
Implicit Types (cell : Cell Sym ScalarType).

Lemma acquare_shared message t w cell :
  heap w !! core t = Some cell -> use_count cell <> 1 ->
  acquare_data_ownership message t w =
    (Ok (mkTensor (names t) (fresh (dom (heap w)))),
     mkWorld
       (<[core t := mkCell (use_count cell - 1) (cell_core cell)]>
          (<[fresh (dom (heap w)) := mkCell 1 (cell_core cell)]> (heap w)))
       (diagnostics w ++ [message])).
Proof.
  intros Hcell Hcount. unfold acquare_data_ownership. rewrite Hcell.
  destruct (Nat.eqb_spec (use_count cell) 1); [contradiction|]. reflexivity.
Qed.

Lemma acquare_unshared message t w cell :
  heap w !! core t = Some cell -> use_count cell = 1 ->
  acquare_data_ownership message t w = (Ok t, w).
Proof.
  intros Hcell Hcount. unfold acquare_data_ownership.
  rewrite Hcell, Hcount. reflexivity.
Qed.

Lemma world_same_storage w t cell :
  heap w !! core t = Some cell ->
  mkWorld
    (<[core t := mkCell (use_count cell)
                   (set_storage (cell_core cell) (storage (cell_core cell)))]>
       (heap w))
    (diagnostics w) = w.
Proof.
  intros Hcell. destruct w as [h d]. simpl in *. f_equal.
  apply insert_id. rewrite Hcell. f_equal.
  destruct cell as [n c]. simpl. f_equal. now destruct c.
Qed.

Lemma std_generate_length {G} (generator : G -> ScalarType * G) (g : G)
    (n : nat) :
  length (std_generate generator g n) = n.
Proof.
  revert g. induction n as [|n IH]; intros g; simpl; [reflexivity|].
  destruct (generator g) as [x g']. simpl. now rewrite IH.
Qed.

Lemma transform_body function :
  writes_own_storage
    (fun t' : Tensor =>
       let! _ := modify_storage (fun s => Ok (map function s)) t' in
       @ret Sym ScalarType _ t').
Proof.
  intros t w cell Hcell. unfold bind, modify_storage, ret. rewrite Hcell.
  eexists _, _. split; [reflexivity|].
  split; [apply length_map | now intros t' [= <-]].
Qed.

Lemma set_body {G} (generator : G -> ScalarType * G) (g : G) :
  writes_own_storage
    (fun t' : Tensor =>
       let! _ :=
         modify_storage
           (fun s => Ok (std_generate generator g (length s))) t' in
       @ret Sym ScalarType _ t').
Proof.
  intros t w cell Hcell. unfold bind, modify_storage, ret. rewrite Hcell.
  eexists _, _. split; [reflexivity|].
  split; [apply std_generate_length | now intros t' [= <-]].
Qed.

Lemma write_at_body (x : ScalarType) :
  writes_own_storage
    (fun t' : Tensor =>
       let! _ := read (const_at t') in
       let! _ := assign (core t', 0) x in
       @ret Sym ScalarType _ t').
Proof.
  intros t w cell Hcell. unfold bind, read, ret.
  destruct (const_at t w) as [y|message|] eqn:Hat.
  - unfold assign. simpl. rewrite Hcell.
    destruct (Nat.ltb 0 (length (storage (cell_core cell)))).
    + eexists _, _. split; [reflexivity|].
      split; [apply length_insert | now intros t' [= <-]].
    + exists Undefined, (storage (cell_core cell)).
      rewrite (world_same_storage _ _ _ Hcell).
      repeat split; discriminate.
  - exists (Fatal message), (storage (cell_core cell)).
    rewrite (world_same_storage _ _ _ Hcell). repeat split; discriminate.
  - exists Undefined, (storage (cell_core cell)).
    rewrite (world_same_storage _ _ _ Hcell). repeat split; discriminate.
Qed.

Lemma write_at_position_body (position : Position) (x : ScalarType) :
  writes_own_storage
    (fun t' : Tensor =>
       let! c := read (read_core t') in
       let! i := lift (get_item (names t') c position) in
       let! _ := assign (core t', i) x in
       @ret Sym ScalarType _ t').
Proof.
  intros t w cell Hcell. unfold bind, read, lift, ret, read_core.
  rewrite Hcell.
  destruct (get_item (names t) (cell_core cell) position)
    as [i|message|] eqn:Hitem.
  - unfold assign. simpl. rewrite Hcell.
    destruct (Nat.ltb i (length (storage (cell_core cell)))).
    + eexists _, _. split; [reflexivity|].
      split; [apply length_insert | now intros t' [= <-]].
    + exists Undefined, (storage (cell_core cell)).
      rewrite (world_same_storage _ _ _ Hcell).
      repeat split; discriminate.
  - exists (Fatal message), (storage (cell_core cell)).
    rewrite (world_same_storage _ _ _ Hcell). repeat split; discriminate.
  - exists Undefined, (storage (cell_core cell)).
    rewrite (world_same_storage _ _ _ Hcell). repeat split; discriminate.
Qed.

(** Every mutating member is the write barrier followed by writes to
    the storage of the handle's own Core. *)
Lemma mutate_barrier (m : mutation Position) t :
  exists message body,
    writes_own_storage body /\
    forall w,
      mutate Position get_item m t w =
        bind (acquare_data_ownership message t) body w.
Proof.
  destruct m as [function|G generator g| |first step|x|position x].
  - eexists _, _. split; [apply (transform_body function)|]. reflexivity.
  - eexists _, _. split; [apply (set_body generator g)|]. reflexivity.
  - eexists _, _. split; [apply (set_body (fun u : unit => (scalar_zero, u)) tt)|].
    reflexivity.
  - eexists _, _.
    split; [apply (set_body (fun first => (first, scalar_add first step)) first)|].
    reflexivity.
  - exists at_message. eexists. split; [apply (write_at_body x)|].
    intros w. unfold mutate, at_mut, bind.
    destruct (acquare_data_ownership at_message t w) as [[t'| |] w1];
      try reflexivity.
    unfold read. destruct (const_at t' w1); reflexivity.
  - exists at_message. eexists.
    split; [apply (write_at_position_body position x)|].
    intros w. unfold mutate, at_position_mut, bind.
    destruct (acquare_data_ownership at_message t w) as [[t'| |] w1];
      try reflexivity.
    unfold read. destruct (read_core t' w1) as [c| |]; try reflexivity.
    unfold lift. destruct (get_item (names t') c position); reflexivity.
Qed.

Lemma std_generate_constant (z : ScalarType) (n : nat) :
  std_generate (fun u : unit => (z, u)) tt n = replicate n z.
Proof. induction n as [|n IH]; simpl; [reflexivity|]. now rewrite IH. Qed.

Lemma set_storage_same (c : Core Sym ScalarType) :
  set_storage c (storage c) = c.
Proof. now destruct c. Qed.

Lemma written_length (m : mutation Position) (names : list Name)
    (c : Core Sym ScalarType) :
  length (storage_after Position get_item m names c) = length (storage c).
Proof.
  unfold storage_after.
  destruct m as [function|G generator g| |first step|x|position x]; simpl.
  - apply length_map.
  - apply std_generate_length.
  - apply length_replicate.
  - apply std_generate_length.
  - destruct (core_const_at c); [apply length_insert | reflexivity..].
  - destruct (get_item names c position) as [i| |]; try reflexivity.
    destruct (Nat.ltb i (length (storage c)));
      [apply length_insert | reflexivity].
Qed.

(** Every mutating member is the write barrier followed by a body that
    leaves in the storage of the handle's own Core what [written] says,
    and nothing when it ends with an error. *)
Lemma mutate_written (m : mutation Position) t :
  exists message body,
    (forall w,
       mutate Position get_item m t w =
         bind (acquare_data_ownership message t) body w) /\
    forall (t' : Tensor) (w1 : World Sym ScalarType) cell1,
      heap w1 !! core t' = Some cell1 ->
      body t' w1 =
        match written Position get_item m (names t') (cell_core cell1) with
        | Ok s =>
            (Ok t',
             mkWorld
               (<[core t' := mkCell (use_count cell1)
                               (set_storage (cell_core cell1) s)]> (heap w1))
               (diagnostics w1))
        | Fatal message => (Fatal message, w1)
        | Undefined => (Undefined, w1)
        end.
Proof.
  destruct m as [function|G generator g| |first step|x|position x].
  - eexists _, _. split; [reflexivity|].
    intros t' w1 cell1 Hcell. unfold bind, modify_storage, ret.
    now rewrite Hcell.
  - eexists _, _. split; [reflexivity|].
    intros t' w1 cell1 Hcell. unfold bind, modify_storage, ret.
    now rewrite Hcell.
  - eexists _, _. split; [reflexivity|].
    intros t' w1 cell1 Hcell. unfold bind, modify_storage, ret.
    rewrite Hcell. simpl. now rewrite std_generate_constant.
  - eexists _, _. split; [reflexivity|].
    intros t' w1 cell1 Hcell. unfold bind, modify_storage, ret.
    now rewrite Hcell.
  - exists at_message,
      (fun t' : Tensor =>
         let! _ := read (const_at t') in
         let! _ := assign (core t', 0) x in
         @ret Sym ScalarType _ t').
    split.
    + intros w. unfold mutate, at_mut, bind.
      destruct (acquare_data_ownership at_message t w) as [[t'| |] w1];
        try reflexivity.
      unfold read. destruct (const_at t' w1); reflexivity.
    + intros t' w1 cell1 Hcell. unfold bind, read, ret, const_at, read_core.
      rewrite Hcell. simpl.
      destruct (core_const_at (cell_core cell1)) as [y| |] eqn:Hat;
        try reflexivity.
      unfold assign. simpl. rewrite Hcell.
      unfold core_const_at, scalar_like in Hat.
      destruct (Nat.eqb_spec (length (storage (cell_core cell1))) 1)
        as [Hlen|Hlen]; [|discriminate Hat].
      rewrite Hlen. reflexivity.
  - exists at_message,
      (fun t' : Tensor =>
         let! c := read (read_core t') in
         let! i := lift (get_item (names t') c position) in
         let! _ := assign (core t', i) x in
         @ret Sym ScalarType _ t').
    split.
    + intros w. unfold mutate, at_position_mut, bind.
      destruct (acquare_data_ownership at_message t w) as [[t'| |] w1];
        try reflexivity.
      unfold read. destruct (read_core t' w1) as [c| |]; try reflexivity.
      unfold lift. destruct (get_item (names t') c position); reflexivity.
    + intros t' w1 cell1 Hcell. unfold bind, read, lift, ret, read_core.
      rewrite Hcell. simpl.
      destruct (get_item (names t') (cell_core cell1) position)
        as [i| |]; try reflexivity.
      unfold assign. simpl. rewrite Hcell.
      destruct (Nat.ltb i (length (storage (cell_core cell1))));
        reflexivity.
Qed.

(** C2. Let [t] be a handle on a Core and [m] one of the mutating
    members ([transform], [set], [zero], [range], a write through a
    non-const [at]). When the Core is shared (use count other than 1),
    the call first gives [t] a fresh Core with use count 1, a copy of
    the old one, and writes there: the fresh Core has the edges and
    blocks of the old one and, as storage, what the member makes of the
    old elements; the old Core keeps its content and loses one owner,
    every handle that existed before reads the same Core as before, and
    one diagnostic is emitted. When the Core is unshared nothing is
    allocated and no diagnostic is emitted; only the storage of [t]'s
    own Core changes, in place. In both cases the storage keeps its
    length. The read-only members leave the world as it is. *)
Theorem copy_on_write (m : mutation Position) t w cell r w' :
  heap w !! core t = Some cell ->
  mutate Position get_item m t w = (r, w') ->
  let after :=
    storage_after Position get_item m (names t) (cell_core cell) in
  let raised := written Position get_item m (names t) (cell_core cell) in
  (use_count cell <> 1 ->
     let p := fresh (dom (heap w)) in
     (p ∉ dom (heap w)) /\
     heap w' !! p = Some (mkCell 1 (set_storage (cell_core cell) after)) /\
     heap w' !! core t =
       Some (mkCell (use_count cell - 1) (cell_core cell)) /\
     (forall t2 : Tensor,
        core t2 ∈ dom (heap w) -> read_core t2 w' = read_core t2 w) /\
     r = outcome_with raised (mkTensor (names t) p) /\
     (exists message, diagnostics w' = (diagnostics w ++ [message])%list)) /\
  (use_count cell = 1 ->
     dom (heap w') = dom (heap w) /\
     diagnostics w' = diagnostics w /\
     (forall p, p <> core t -> heap w' !! p = heap w !! p) /\
     heap w' !! core t = Some (mkCell 1 (set_storage (cell_core cell) after)) /\
     r = outcome_with raised t) /\
  length after = length (storage (cell_core cell)) /\
  (read (const_at t) w = (const_at t w, w) /\
   read (to_scalar t) w = (to_scalar t w, w) /\
   read (tensor_edges t) w = (tensor_edges t w, w) /\
   read (tensor_storage t) w = (tensor_storage t w, w) /\
   forall key, read (tensor_blocks key t) w = (tensor_blocks key t w, w)).
Proof.
  intros Hcell Hrun after raised.
  destruct (mutate_written m t) as (message & body & Heq & Hbody).
  rewrite Heq in Hrun. unfold bind in Hrun.
  split; [|split; [|split; [apply written_length | repeat split]]].
  - intros Hcount p.
    assert (Hfresh : heap w !! p = None) by apply fresh_lookup.
    assert (Hne : core t <> p) by congruence.
    rewrite (acquare_shared _ _ _ _ Hcell Hcount) in Hrun.
    fold p in Hrun.
    match type of Hrun with body ?t1 ?w1 = _ =>
      pose proof (Hbody t1 w1 (mkCell 1 (cell_core cell))) as Hb
    end.
    rewrite Hb in Hrun
      by (simpl; rewrite lookup_insert_ne by congruence;
          apply lookup_insert_eq).
    clear Hb. simpl in Hrun. fold raised in Hrun.
    split; [now apply not_elem_of_dom|].
    assert (Hframe : forall (h : gmap loc (Cell Sym ScalarType)) (t2 : Tensor),
      h !! p = None -> core t2 ∈ dom (heap w) -> core t2 <> p).
    { intros h t2 _ Hdom E. rewrite E in Hdom.
      apply not_elem_of_dom in Hfresh. contradiction. }
    unfold after, storage_after. fold raised.
    destruct raised as [s| |]; injection Hrun as <- <-; simpl.
    + split; [apply lookup_insert_eq|].
      split; [rewrite lookup_insert_ne by congruence;
              apply lookup_insert_eq|].
      split; [|split; [reflexivity | exists message; reflexivity]].
      intros t2 Hdom. unfold read_core. simpl.
      pose proof (Hframe (heap w) t2 Hfresh Hdom) as Hp.
      rewrite lookup_insert_ne by congruence.
      destruct (decide (core t2 = core t)) as [->|Hother].
      * rewrite lookup_insert_eq, Hcell. reflexivity.
      * rewrite !lookup_insert_ne by congruence. reflexivity.
    + rewrite set_storage_same.
      split; [rewrite lookup_insert_ne by congruence; apply lookup_insert_eq|].
      split; [apply lookup_insert_eq|].
      split; [|split; [reflexivity | exists message; reflexivity]].
      intros t2 Hdom. unfold read_core. simpl.
      pose proof (Hframe (heap w) t2 Hfresh Hdom) as Hp.
      destruct (decide (core t2 = core t)) as [->|Hother].
      * rewrite lookup_insert_eq, Hcell. reflexivity.
      * rewrite !lookup_insert_ne by congruence. reflexivity.
    + rewrite set_storage_same.
      split; [rewrite lookup_insert_ne by congruence; apply lookup_insert_eq|].
      split; [apply lookup_insert_eq|].
      split; [|split; [reflexivity | exists message; reflexivity]].
      intros t2 Hdom. unfold read_core. simpl.
      pose proof (Hframe (heap w) t2 Hfresh Hdom) as Hp.
      destruct (decide (core t2 = core t)) as [->|Hother].
      * rewrite lookup_insert_eq, Hcell. reflexivity.
      * rewrite !lookup_insert_ne by congruence. reflexivity.
  - intros Hcount.
    rewrite (acquare_unshared _ _ _ _ Hcell Hcount) in Hrun.
    rewrite (Hbody t w cell Hcell) in Hrun. fold raised in Hrun.
    unfold after, storage_after. fold raised.
    destruct raised as [s| |]; injection Hrun as <- <-; simpl.
    + split; [|split; [reflexivity|split; [|split]]].
      * rewrite dom_insert_L.
        apply subseteq_union_1_L, singleton_subseteq_l, elem_of_dom. eauto.
      * intros p Hp. now rewrite lookup_insert_ne by congruence.
      * rewrite lookup_insert_eq, Hcount. reflexivity.
      * reflexivity.
    + rewrite set_storage_same. repeat split; try reflexivity.
      rewrite Hcell. destruct cell as [n c]. simpl in *. now subst n.
    + rewrite set_storage_same. repeat split; try reflexivity.
      rewrite Hcell. destruct cell as [n c]. simpl in *. now subst n.
Qed.

End CopyOnWrite.

Lemma copy_on_write_witness :
  fst (mutate unit first_item (call_set counter 0) rename_t1 shared_world)
    = Ok (mkTensor ["Left"; "Right"; "Phy"] 2%positive) /\
  heap (snd (mutate unit first_item (call_set counter 0) rename_t1
               shared_world)) !! 2%positive
    = Some (mkCell 1
              (set_storage rename_core
                 (std_generate counter 0 (length (storage rename_core))))) /\
  read_core rename_t2
    (snd (mutate unit first_item (call_set counter 0) rename_t1 shared_world))
    = Ok rename_core.
Proof.
  destruct (copy_on_write first_item (call_set counter 0) rename_t1
              shared_world (mkCell 2 rename_core)
              (fst (mutate unit first_item (call_set counter 0) rename_t1
                      shared_world))
              (snd (mutate unit first_item (call_set counter 0) rename_t1
                      shared_world))
              eq_refl eq_refl) as [Hshared _].
  destruct Hshared as (_ & Hcopy & _ & Hread & Hresult & _); [simpl; lia|].
  split; [exact Hresult|]. split; [exact Hcopy|].
  rewrite (Hread rename_t2); [reflexivity|].
  apply elem_of_dom. exists (mkCell 2 rename_core). reflexivity.
Defined.

(** ** Rename *)

Section EdgeOperations.
Context {Sym : Type} {SymI : Symmetry Sym} {ScalarType : Type}.
Implicit Types (w : World Sym ScalarType) (t : Tensor).


End EdgeOperations.


(** ** Change of scalar type *)

Section ScalarChange.
Context {Sym : Type} {SymI : Symmetry Sym}.

Lemma std_transform_into_exact {A B} (function : A -> B)
    (src : list A) (dst : list B) :
  length dst = length src ->
  std_transform_into function src dst = Ok (map function src).
Proof.
  intros Hlen. unfold std_transform_into.
  rewrite <- Hlen, Nat.leb_refl, drop_all. now rewrite app_nil_r.
Qed.



End ScalarChange.


(** * Further properties *)

(** ** Names *)

(** X1. [check_valid_name] never returns [false]: it raises the length
    error when the lengths differ, whether or not names repeat; with the
    right length it raises the duplicate error when two names are equal;
    otherwise it returns [true]. *)
Theorem check_valid_name_cases (names : list Name) (rank : Rank) :
  (length names <> rank ->
     check_valid_name names rank =
       Fatal "Wrong name list length which no equals to expected length") /\
  (length names = rank -> ~ List.NoDup names ->
     check_valid_name names rank = Fatal "Duplicated names in name list") /\
  (length names = rank -> List.NoDup names ->
     check_valid_name names rank = Ok true) /\
  check_valid_name names rank <> Ok false /\
  check_valid_name names rank <> Undefined.
Proof.
  unfold check_valid_name.
  destruct (Nat.eqb_spec (length names) rank) as [Hlen|Hlen]; simpl.
  - assert (Hcases : List.NoDup names \/ ~ List.NoDup names).
    { clear. induction names as [|i rest IH]; [left; constructor|].
      destruct IH as [IH|IH].
      - destruct (in_dec string_dec i rest) as [Hin|Hin].
        + right. intros Hnd. inversion Hnd. contradiction.
        + left. constructor; assumption.
      - right. intros Hnd. inversion Hnd. contradiction. }
    split; [intros; contradiction|].
    split; [intros _ Hdup; now apply check_duplicate_dup|].
    split; [intros _ Hnd; now apply check_duplicate_NoDup|].
    destruct Hcases as [Hnd|Hdup].
    + rewrite (check_duplicate_NoDup _ Hnd). split; discriminate.
    + rewrite (check_duplicate_dup _ Hdup). split; discriminate.
  - split; [reflexivity|]. split; [intros; contradiction|].
    split; [intros; contradiction|]. split; discriminate.
Qed.

Lemma check_valid_name_cases_witness :
  check_valid_name ["Left"; "Left"; "Up"] 2 =
    Fatal "Wrong name list length which no equals to expected length" /\
  check_valid_name ["Left"; "Left"] 2 = Fatal "Duplicated names in name list" /\
  check_valid_name ["Left"; "Right"] 2 = Ok true.
Proof.
  split; [|split].
  - apply (proj1 (check_valid_name_cases ["Left"; "Left"; "Up"] 2)).
    simpl. lia.
  - apply (proj1 (proj2 (check_valid_name_cases ["Left"; "Left"] 2)));
      [reflexivity|].
    intros Hnd. inversion Hnd as [|? ? Hnot _]. apply Hnot. now left.
  - apply (proj1 (proj2 (proj2 (check_valid_name_cases ["Left"; "Right"] 2))));
      [reflexivity|].
    repeat constructor; simpl; intuition discriminate.
Defined.

Lemma std_find_Some (names : list Name) (name : Name) (r : nat) :
  std_find names name = Some r <->
  names !! r = Some name /\ forall j, j < r -> names !! j <> Some name.
Proof.
  revert r. induction names as [|n rest IH]; intros r; simpl.
  - split; [discriminate | intros [Hr _]; discriminate].
  - destruct (String.eqb_spec n name) as [->|Hne].
    + split.
      * intros [= <-]. split; [reflexivity | intros j Hj; lia].
      * intros [Hr Hfirst]. destruct r as [|r]; [reflexivity|].
        exfalso. apply (Hfirst 0); [lia | reflexivity].
    + destruct r as [|r].
      * split.
        -- destruct (std_find rest name); discriminate.
        -- intros [Hr _]. simpl in Hr. congruence.
      * pose proof (IH r) as Hiff.
        destruct (std_find rest name) as [r'|].
        -- split.
           ++ intros [= ->]. destruct (proj1 Hiff eq_refl) as [Hr Hfirst].
              split; [exact Hr|]. intros [|j] Hj; simpl; [congruence|].
              apply Hfirst. lia.
           ++ intros [Hr Hfirst]. simpl in Hr.
              assert (E : Some r' = Some r).
              { apply Hiff. split; [exact Hr|].
                intros j Hj. apply (Hfirst (S j)). lia. }
              congruence.
        -- split; [discriminate|]. intros [Hr Hfirst]. simpl in Hr.
           assert (E : None = Some r).
           { apply Hiff. split; [exact Hr|].
             intros j Hj. apply (Hfirst (S j)). lia. }
           discriminate.
Qed.

Lemma std_find_None (names : list Name) (name : Name) :
  std_find names name = None <-> ~ In name names.
Proof.
  induction names as [|n rest IH]; simpl.
  - tauto.
  - destruct (String.eqb_spec n name) as [->|Hne].
    + split; [discriminate | intros Hnot; exfalso; apply Hnot; now left].
    + destruct (std_find rest name) as [r|].
      * split; [discriminate|]. intros Hnot. exfalso.
        assert (Hn : ~ In name rest) by tauto.
        apply IH in Hn. discriminate.
      * split; [|reflexivity]. intros _ [E|Hin]; [congruence|].
        now apply (proj1 IH).
Qed.

(** X2. [get_rank_from_name] returns the position of the first
    occurrence of the name, which is below the rank, and raises
    [No such name in name list] exactly when the name is not in the
    list. *)
Theorem get_rank_from_name_first (t : Tensor) (name : Name) :
  (forall r, get_rank_from_name t name = Ok r <->
     names t !! r = Some name /\
     forall j, j < r -> names t !! j <> Some name) /\
  (forall r, get_rank_from_name t name = Ok r -> r < get_rank t) /\
  (get_rank_from_name t name = Fatal "No such name in name list" <->
     ~ In name (names t)).
Proof.
  unfold get_rank_from_name, find_rank_from_name, get_rank, error.
  split; [|split].
  - intros r. rewrite <- std_find_Some.
    destruct (std_find (names t) name); split; intros E;
      try discriminate; injection E as ->; reflexivity.
  - intros r Hr. destruct (std_find (names t) name) as [r'|] eqn:Hfind;
      [|discriminate].
    injection Hr as ->. apply std_find_Some in Hfind.
    eapply lookup_lt_Some. exact (proj1 Hfind).
  - rewrite <- std_find_None.
    destruct (std_find (names t) name); split; (discriminate || reflexivity).
Qed.

(** X3. For a tensor whose names are distinct, looking a rank up by the
    name stored at position [r] gives back [r]. *)
Theorem get_rank_from_name_inverse (t : Tensor) (name : Name) (r : nat) :
  List.NoDup (names t) -> names t !! r = Some name ->
  get_rank_from_name t name = Ok r.
Proof.
  intros Hnd Hr. unfold get_rank_from_name, find_rank_from_name.
  destruct (std_find (names t) name) as [r'|] eqn:Hfind.
  - apply std_find_Some in Hfind. destruct Hfind as [Hr' _].
    f_equal. apply NoDup_ListNoDup in Hnd.
    exact (NoDup_lookup _ _ _ _ Hnd Hr' Hr).
  - apply std_find_None in Hfind. exfalso. apply Hfind.
    apply list_elem_of_In. eapply list_elem_of_lookup_2. exact Hr.
Qed.

Lemma get_rank_from_name_inverse_witness :
  get_rank_from_name basic_usage_tensor "Up" = Ok 2.
Proof.
  apply (get_rank_from_name_inverse basic_usage_tensor "Up" 2).
  - repeat constructor; simpl; intuition discriminate.
  - reflexivity.
Defined.

(** ** Edges and blocks by name *)

Section EdgesAndBlocks.
Context {Sym : Type} {SymI : Symmetry Sym}.
Context {ScalarType : Type} {ScalarI : Scalar ScalarType}.
Implicit Types (w : World Sym ScalarType) (t : Tensor).
Implicit Types (c : Core Sym ScalarType).

(** X4. On a tensor with one name per edge, [edges(name)] is the edge at
    the rank of the name, the same as [edges(rank)], and never runs past
    the end of the edge list; a name that is not in the list raises
    [No such name in name list]. *)
Theorem edges_by_name_at_rank t w c (name : Name) :
  read_core t w = Ok c ->
  length (names t) = length (edges c) ->
  (In name (names t) ->
     exists r e,
       get_rank_from_name t name = Ok r /\
       edges c !! r = Some e /\
       edges_by_name name t w = Ok e /\
       edges_at r t w = Ok e) /\
  (~ In name (names t) ->
     edges_by_name name t w = Fatal "No such name in name list").
Proof.
  intros Hc Hlen. unfold edges_by_name, get_rank_from_name, find_rank_from_name.
  split.
  - intros Hin. destruct (std_find (names t) name) as [r|] eqn:Hfind.
    + assert (Hr : r < length (edges c)).
      { rewrite <- Hlen. apply std_find_Some in Hfind.
        eapply lookup_lt_Some. exact (proj1 Hfind). }
      destruct (lookup_lt_is_Some_2 _ _ Hr) as [e He].
      exists r, e. split; [reflexivity|]. split; [exact He|].
      unfold edges_at, Rank. rewrite Hc. cbv beta iota. rewrite He.
      split; reflexivity.
    + apply std_find_None in Hfind. contradiction.
  - intros Hnot. apply std_find_None in Hnot. now rewrite Hnot.
Qed.

Lemma lower_bound_loop_range {A} (v : list A) (less : A -> bool)
    (fuel first len : nat) :
  first <= lower_bound_loop fuel v less first len <= first + len.
Proof.
  revert first len. induction fuel as [|fuel IH]; intros first len; simpl.
  - lia.
  - destruct (Nat.eqb_spec len 0) as [->|Hpos]; [clear IH; lia|].
    assert (Hhalf : Nat.div2 len < len) by (apply Nat.lt_div2; lia).
    set (half := Nat.div2 len) in *. clearbody half.
    destruct (v !! (first + half)) as [x|]; [|clear IH; lia].
    destruct (less x).
    + pose proof (IH (first + half + 1) (len - half - 1)) as Hrec.
      clear IH. lia.
    + pose proof (IH first half) as Hrec. clear IH. lia.
Qed.

(** X5. The bisection of [find_block] stays inside the block list, so
    the block it looks at exists whenever the position is not the end;
    and whatever the order of the block list, [blocks(key)] either
    returns the content of a stored block whose tuple is exactly [key]
    or raises [No such symmetry block in the tensor]. *)
Theorem blocks_lookup_safe c (key : list Sym) :
  let result :=
    lower_bound (blocks c) (fun a => lexicographical_compare (fst a) key) in
  result <= length (blocks c) /\
  (result <> length (blocks c) -> is_Some (blocks c !! result)) /\
  (forall v, core_blocks c key = Ok v ->
     exists i, blocks c !! i = Some (key, v)) /\
  (forall message, core_blocks c key = Fatal message ->
     message = "No such symmetry block in the tensor") /\
  core_blocks c key <> Undefined.
Proof.
  intros result.
  assert (Hle : result <= length (blocks c)).
  { unfold result, lower_bound.
    pose proof (lower_bound_loop_range (blocks c)
      (fun a => lexicographical_compare (fst a) key)
      (length (blocks c)) 0 (length (blocks c))). lia. }
  split; [exact Hle|]. split.
  { intros Hne. apply lookup_lt_is_Some_2. lia. }
  unfold core_blocks.
  destruct (find_block c key) as [i|] eqn:Hfind.
  - destruct (find_block_sound c key i Hfind) as ([k v] & Hi & Hkey).
    simpl in Hkey. subst k. rewrite Hi. simpl. split; [|split].
    + intros v' [= <-]. exists i. exact Hi.
    + intros message Hm. discriminate.
    + discriminate.
  - unfold error. split; [|split].
    + discriminate.
    + now intros message [= <-].
    + discriminate.
Qed.

Lemma symmetry_list_of_Forall2 (names : list Name) (m : gmap Name Sym)
    (qs : list Sym) :
  Forall2 (fun name q => m !! name = Some q) names qs ->
  symmetry_list_of names m = Ok qs.
Proof.
  induction 1 as [|name q names qs Hq HF IH]; simpl; [reflexivity|].
  now rewrite Hq, IH.
Qed.

Lemma symmetry_list_of_missing (names : list Name) (m : gmap Name Sym)
    (name : Name) :
  In name names -> m !! name = None ->
  symmetry_list_of names m = Fatal "map::at".
Proof.
  intros Hin Hnone. induction names as [|n rest IH]; simpl; [destruct Hin|].
  destruct (m !! n) as [q|] eqn:Hq; [|reflexivity].
  destruct Hin as [->|Hin]; [congruence|].
  now rewrite (IH Hin).
Qed.

Lemma symmetry_list_of_agree (names : list Name) (m1 m2 : gmap Name Sym) :
  (forall name, In name names -> m1 !! name = m2 !! name) ->
  symmetry_list_of names m1 = symmetry_list_of names m2.
Proof.
  induction names as [|n rest IH]; intros Hagree; simpl; [reflexivity|].
  rewrite (Hagree n) by now left.
  rewrite IH; [reflexivity|]. intros name Hin. apply Hagree. now right.
Qed.

(** X6. [blocks] called with a map from names to charges looks up the
    tuple of the charges of the tensor's names, in the order of the
    names; only the entries at the tensor's names are read, and a name
    the map lacks raises the exception of [std::map::at], whatever the
    blocks are. *)
Theorem blocks_by_name_as_list t w (m : gmap Name Sym) :
  (forall qs,
     Forall2 (fun name q => m !! name = Some q) (names t) qs ->
     tensor_blocks_by_name m t w = tensor_blocks qs t w) /\
  (forall m' : gmap Name Sym,
     (forall name, In name (names t) -> m !! name = m' !! name) ->
     tensor_blocks_by_name m t w = tensor_blocks_by_name m' t w) /\
  (forall name, In name (names t) -> m !! name = None ->
     tensor_blocks_by_name m t w = Fatal "map::at").
Proof.
  unfold tensor_blocks_by_name. split; [|split].
  - intros qs HF. now rewrite (symmetry_list_of_Forall2 _ _ _ HF).
  - intros m' Hagree. now rewrite (symmetry_list_of_agree _ _ _ Hagree).
  - intros name Hin Hnone.
    now rewrite (symmetry_list_of_missing _ _ _ Hin Hnone).
Qed.

End EdgesAndBlocks.

Lemma edges_by_name_at_rank_witness :
  edges_by_name "Right" basic_usage_tensor basic_usage_world
    = Ok (mkEdge [(true, 1); (false, 2)] false) /\
  edges_at 1 basic_usage_tensor basic_usage_world
    = Ok (mkEdge [(true, 1); (false, 2)] false) /\
  edges_by_name "Down" basic_usage_tensor basic_usage_world
    = Fatal "No such name in name list".
Proof.
  destruct (edges_by_name_at_rank basic_usage_tensor basic_usage_world
              basic_usage_core "Right" eq_refl eq_refl) as [Hin _].
  destruct Hin as (r & e & Hrank & He & Hname & Hat);
    [simpl; tauto|].
  injection Hrank as <-. injection He as <-.
  split; [exact Hname|]. split; [exact Hat|].
  apply (edges_by_name_at_rank basic_usage_tensor basic_usage_world
           basic_usage_core "Down" eq_refl eq_refl).
  simpl. intuition discriminate.
Defined.

Lemma blocks_by_name_as_list_witness :
  tensor_blocks_by_name
    {[ "Left" := true; "Right" := false; "Up" := true; "Down" := true ]}
    basic_usage_tensor basic_usage_world
  = tensor_blocks [true; false; true] basic_usage_tensor basic_usage_world /\
  tensor_blocks_by_name {[ "Left" := true; "Right" := false ]}
    basic_usage_tensor basic_usage_world = Fatal "map::at".
Proof.
  split.
  - apply (blocks_by_name_as_list basic_usage_tensor basic_usage_world).
    repeat constructor.
  - apply (proj2 (proj2 (blocks_by_name_as_list basic_usage_tensor
                           basic_usage_world
                           {[ "Left" := true; "Right" := false ]})) "Up").
    + simpl. tauto.
    + reflexivity.
Defined.

(** ** Tensors of one element *)

Section OneElement.
Context {Sym : Type} {SymI : Symmetry Sym}.
Context {ScalarType : Type} {ScalarI : Scalar ScalarType}.
Implicit Types (w : World Sym ScalarType) (t : Tensor).
Implicit Types (es : list (Edge Sym)) (uninit : nat -> ScalarType).

(** Construction followed by [storage().front() = number]. *)
Lemma new_then_front debug_mode uninit (names_init : list Name) es
    (number : ScalarType) w :
  length names_init = length es -> List.NoDup names_init ->
  (let! t := Tensor_new debug_mode uninit names_init es in
   let! _ := set_front number t in
   ret t) w =
  match storage (Core_make uninit es) with
  | [] =>
      (Undefined,
       mkWorld
         (<[fresh (dom (heap w)) := mkCell 1 (Core_make uninit es)]> (heap w))
         (diagnostics w))
  | _ :: rest =>
      (Ok (mkTensor names_init (fresh (dom (heap w)))),
       mkWorld
         (<[fresh (dom (heap w)) :=
              mkCell 1 (set_storage (Core_make uninit es) (number :: rest))]>
            (heap w))
         (diagnostics w))
  end.
Proof.
  intros Hlen Hnd. unfold bind.
  rewrite (Tensor_new_valid debug_mode uninit _ _ w Hlen Hnd).
  unfold set_front, modify_storage. simpl heap. simpl core.
  rewrite lookup_insert_eq. simpl cell_core. simpl use_count.
  destruct (storage (Core_make uninit es)) as [|x rest]; [reflexivity|].
  simpl. now rewrite insert_insert_eq.
Qed.

(** X7. [Tensor(number)] makes a rank-0 tensor over a fresh Core that
    nobody else owns, and the scalar conversion gives [number] back;
    the Cores that existed before are as they were. *)
Theorem Tensor_of_number_to_scalar debug_mode uninit (number : ScalarType) w :
  exists t w',
    Tensor_of_number debug_mode uninit number w = (Ok t, w') /\
    get_rank t = 0 /\
    to_scalar t w' = Ok number /\
    tensor_storage t w' = Ok [number] /\
    (core t ∉ dom (heap w)) /\
    (exists c, heap w' !! core t = Some (mkCell 1 c)) /\
    (forall t2 : Tensor, core t2 ∈ dom (heap w) ->
       read_core t2 w' = read_core t2 w) /\
    diagnostics w' = diagnostics w.
Proof.
  unfold Tensor_of_number.
  rewrite new_then_front by (reflexivity || constructor).
  simpl storage. rewrite allowed_blocks_nil. simpl.
  eexists _, _. split; [reflexivity|]. split; [reflexivity|].
  assert (Hfresh : heap w !! fresh (dom (heap w)) = None)
    by apply fresh_lookup.
  unfold to_scalar, const_at, tensor_storage, read_core. simpl.
  rewrite lookup_insert_eq. simpl.
  split; [reflexivity|]. split; [reflexivity|].
  split; [now apply not_elem_of_dom|].
  split; [eexists; reflexivity|]. split; [|reflexivity].
  intros t2 Hdom.
  assert (core t2 <> fresh (dom (heap w))).
  { intros E. rewrite E in Hdom. apply not_elem_of_dom in Hfresh.
    contradiction. }
  now rewrite lookup_insert_ne by congruence.
Qed.

(** X8. [Tensor::one] with no name, no symmetry and no arrow is
    [Tensor(number)], for every symmetry type. *)
Theorem one_without_edges debug_mode uninit (number : ScalarType) w :
  one debug_mode uninit number [] [] [] w =
  Tensor_of_number debug_mode uninit number w.
Proof.
  unfold one, Tensor_of_number, get_edge_from_edge_symmetry_and_arrow.
  destruct (Nat.eqb sym_length 0); reflexivity.
Qed.

Lemma edges_from_points (edge_symmetry : list Sym) (edge_arrow : list Arrow) :
  (is_fermi_symmetry = true -> length edge_symmetry <= length edge_arrow) ->
  exists es,
    edges_from_symmetry_and_arrow edge_symmetry edge_arrow = Ok es /\
    Forall2 (fun e q => segment e = [(q, 1)]) es edge_symmetry /\
    map arrow es =
      if is_fermi_symmetry
      then take (length edge_symmetry) edge_arrow
      else replicate (length edge_symmetry) false.
Proof.
  revert edge_arrow.
  induction edge_symmetry as [|q syms IH]; intros edge_arrow Hlen; simpl.
  - exists []. split; [reflexivity|]. split; [constructor|].
    now destruct is_fermi_symmetry.
  - destruct is_fermi_symmetry eqn:Hfermi.
    + destruct edge_arrow as [|a arrows];
        [specialize (Hlen eq_refl); simpl in Hlen; lia|].
      destruct (IH arrows) as (es & Hes & HF & Harrow).
      { intros _. specialize (Hlen eq_refl). simpl in Hlen. lia. }
      rewrite Hes. eexists. split; [reflexivity|].
      split; [constructor; [reflexivity | exact HF]|].
      simpl. now rewrite Harrow.
    + destruct (IH (tail edge_arrow)) as (es & Hes & HF & Harrow);
        [discriminate|].
      rewrite Hes. eexists. split; [reflexivity|].
      split; [constructor; [reflexivity | exact HF]|].
      simpl. now rewrite Harrow.
Qed.

Lemma edges_from_short (edge_symmetry : list Sym) (edge_arrow : list Arrow) :
  is_fermi_symmetry = true -> length edge_arrow < length edge_symmetry ->
  edges_from_symmetry_and_arrow edge_symmetry edge_arrow = Undefined.
Proof.
  intros Hfermi. revert edge_arrow.
  induction edge_symmetry as [|q syms IH]; intros edge_arrow Hlen; simpl in *.
  - lia.
  - rewrite Hfermi. destruct edge_arrow as [|a arrows]; [reflexivity|].
    simpl in Hlen. rewrite IH by lia. reflexivity.
Qed.

(** X9. [get_edge_from_edge_symmetry_and_arrow] ignores [rank] unless the
    symmetry is trivial, where it gives [rank] edges of dimension 1;
    otherwise it gives one edge per given symmetry, each with the single
    segment of that charge and dimension 1, with the given arrows for a
    fermionic symmetry and no arrow else; reading an arrow past the end
    of a too short arrow list is undefined. *)
Theorem edges_of_symmetries_and_arrows (edge_symmetry : list Sym)
    (edge_arrow : list Arrow) (rank : Rank) :
  (@sym_length Sym _ = 0 ->
     get_edge_from_edge_symmetry_and_arrow edge_symmetry edge_arrow rank
       = Ok (replicate rank (mkEdge [(sym_zero, 1)] false))) /\
  (@sym_length Sym _ <> 0 ->
     (@is_fermi_symmetry Sym _ = true ->
        length edge_symmetry <= length edge_arrow) ->
     exists es,
       get_edge_from_edge_symmetry_and_arrow edge_symmetry edge_arrow rank
         = Ok es /\
       length es = length edge_symmetry /\
       Forall2 (fun e q => segment e = [(q, 1)]) es edge_symmetry /\
       map arrow es =
         if @is_fermi_symmetry Sym _
         then take (length edge_symmetry) edge_arrow
         else replicate (length edge_symmetry) false) /\
  (@sym_length Sym _ <> 0 -> @is_fermi_symmetry Sym _ = true ->
     length edge_arrow < length edge_symmetry ->
     get_edge_from_edge_symmetry_and_arrow edge_symmetry edge_arrow rank
       = Undefined).
Proof.
  unfold get_edge_from_edge_symmetry_and_arrow.
  destruct (Nat.eqb_spec (@sym_length Sym _) 0) as [Hzero|Hnonzero].
  - split; [reflexivity|]. split; intros; contradiction.
  - split; [intros; contradiction|]. split.
    + intros _ Hlen.
      destruct (edges_from_points edge_symmetry edge_arrow Hlen)
        as (es & Hes & HF & Harrow).
      exists es. split; [exact Hes|].
      split; [exact (Forall2_length _ _ _ HF)|]. split; assumption.
    + intros _ Hfermi Hlen. now apply edges_from_short.
Qed.

End OneElement.

Section OneOfCharges.
Context {Sym : Type} {SymI : Symmetry Sym}.
Context {ScalarType : Type} {ScalarI : Scalar ScalarType}.
Implicit Types (w : World Sym ScalarType) (t : Tensor).
Implicit Types (es : list (Edge Sym)) (uninit : nat -> ScalarType).






End OneOfCharges.


Lemma edges_of_symmetries_and_arrows_witness :
  (exists es : list (Edge Z),
     get_edge_from_edge_symmetry_and_arrow [(-2)%Z; 2%Z] [true; false] 7
       = Ok es /\
     length es = 2 /\ map arrow es = [true; false]) /\
  get_edge_from_edge_symmetry_and_arrow [(-2)%Z; 2%Z] [true] 2
    = @Undefined (list (Edge Z)).
Proof.
  split.
  - destruct (proj1 (proj2 (edges_of_symmetries_and_arrows
                              [(-2)%Z; 2%Z] [true; false] 7)))
      as (es & Hes & Hlen & _ & Harrow).
    + simpl. lia.
    + intros _. simpl. lia.
    + exists es. split; [exact Hes|]. split; [exact Hlen | exact Harrow].
  - apply (proj2 (proj2 (edges_of_symmetries_and_arrows
                           [(-2)%Z; 2%Z] [true] 2))).
    + simpl. lia.
    + reflexivity.
    + simpl. lia.
Defined.

(** ** The write barrier and the members behind it *)

Section Mutators.
Context {Sym : Type} {SymI : Symmetry Sym}.
Context {ScalarType : Type} {ScalarI : Scalar ScalarType}.
Context {Position : Type}.
Variable get_item :
  list Name -> Core Sym ScalarType -> Position -> Outcome nat.
Implicit Types (w : World Sym ScalarType) (t : Tensor).
Implicit Types (cell : Cell Sym ScalarType).

Lemma cell_eta cell :
  use_count cell = 1 -> cell = mkCell 1 (cell_core cell).
Proof. destruct cell as [n c]. simpl. now intros ->. Qed.

Lemma acquare_exclusive message t w cell :
  heap w !! core t = Some cell ->
  exists t1 w1,
    acquare_data_ownership message t w = (Ok t1, w1) /\
    names t1 = names t /\
    heap w1 !! core t1 = Some (mkCell 1 (cell_core cell)) /\
    (use_count cell = 1 -> t1 = t /\ w1 = w) /\
    (use_count cell <> 1 ->
       core t1 = fresh (dom (heap w)) /\
       diagnostics w1 = (diagnostics w ++ [message])%list /\
       heap w1 =
         <[core t := mkCell (use_count cell - 1) (cell_core cell)]>
           (<[fresh (dom (heap w)) := mkCell 1 (cell_core cell)]> (heap w))).
Proof.
  intros Hcell. destruct (Nat.eq_dec (use_count cell) 1) as [Hone|Hshared].
  - rewrite (acquare_unshared _ _ _ _ Hcell Hone). exists t, w.
    split; [reflexivity|]. split; [reflexivity|].
    split; [now rewrite Hcell, (cell_eta _ Hone) at 1|].
    split; [intros _; split; reflexivity | intros; contradiction].
  - rewrite (acquare_shared _ _ _ _ Hcell Hshared). eexists _, _.
    split; [reflexivity|]. split; [reflexivity|]. simpl.
    assert (Hne : core t <> fresh (dom (heap w))).
    { intros E. pose proof (fresh_lookup w) as Hf. congruence. }
    split; [rewrite lookup_insert_ne by congruence; apply lookup_insert_eq|].
    split; [intros; contradiction|]. intros _. repeat split; reflexivity.
Qed.

(** The barrier followed by one write of the whole storage. *)
Lemma barrier_then_modify message
    (g : list ScalarType -> Outcome (list ScalarType)) t w cell s' :
  heap w !! core t = Some cell ->
  g (storage (cell_core cell)) = Ok s' ->
  exists t1 w1,
    (let! t' := acquare_data_ownership message t in
     let! _ := modify_storage g t' in
     ret t') w = (Ok t1, w1) /\
    names t1 = names t /\
    heap w1 !! core t1 = Some (mkCell 1 (set_storage (cell_core cell) s')) /\
    dom (heap w) ⊆ dom (heap w1) /\
    (use_count cell = 1 ->
       t1 = t /\ diagnostics w1 = diagnostics w /\
       dom (heap w1) = dom (heap w)) /\
    (use_count cell <> 1 ->
       (core t1 ∉ dom (heap w)) /\
       diagnostics w1 = (diagnostics w ++ [message])%list /\
       forall t2 : Tensor, core t2 ∈ dom (heap w) ->
         read_core t2 w1 = read_core t2 w).
Proof.
  intros Hcell Hg.
  destruct (acquare_exclusive message t w cell Hcell)
    as (t1 & w0 & Hacq & Hnames & Hcell1 & Hone & Hshared).
  unfold bind. rewrite Hacq. unfold modify_storage. rewrite Hcell1. simpl.
  rewrite Hg. exists t1. eexists. split; [reflexivity|].
  split; [exact Hnames|]. simpl. split; [apply lookup_insert_eq|].
  assert (Hin : core t ∈ dom (heap w)) by (apply elem_of_dom; eauto).
  destruct (Nat.eq_dec (use_count cell) 1) as [Hc|Hc].
  - destruct (Hone Hc) as [-> ->].
    assert (Hdom : dom (<[core t := mkCell 1 (set_storage (cell_core cell) s')]>
                          (heap w)) = dom (heap w)).
    { rewrite dom_insert_L.
      apply subseteq_union_1_L, singleton_subseteq_l, Hin. }
    split; [now rewrite Hdom|].
    split; [intros _; split; [reflexivity|]; split; [reflexivity | exact Hdom]|].
    intros; contradiction.
  - destruct (Hshared Hc) as (Hcore & Hdiag & Hheap).
    assert (Hfresh : heap w !! fresh (dom (heap w)) = None)
      by apply fresh_lookup.
    split.
    { rewrite dom_insert_L, Hheap, !dom_insert_L. intros x Hx.
      do 3 (apply elem_of_union; right). exact Hx. }
    split; [intros; contradiction|]. intros _.
    split; [rewrite Hcore; now apply not_elem_of_dom|].
    split; [exact Hdiag|].
    intros t2 Hdom. unfold read_core. simpl.
    assert (core t2 <> core t1).
    { rewrite Hcore. intros E. rewrite E in Hdom.
      apply not_elem_of_dom in Hfresh. contradiction. }
    rewrite lookup_insert_ne by congruence. rewrite Hheap.
    destruct (decide (core t2 = core t)) as [E|Hother].
    + rewrite E, lookup_insert_eq, Hcell. reflexivity.
    + rewrite !lookup_insert_ne by congruence. reflexivity.
Qed.

End Mutators.

Section MutatorProperties.
Context {Sym : Type} {SymI : Symmetry Sym}.
Context {ScalarType : Type} {ScalarI : Scalar ScalarType}.
Context {Position : Type}.
Variable get_item :
  list Name -> Core Sym ScalarType -> Position -> Outcome nat.
Implicit Types (w : World Sym ScalarType) (t : Tensor).
Implicit Types (cell : Cell Sym ScalarType).

(** X11. [acquare_data_ownership] leaves the handle as the only owner of
    a Core with the content it had: afterwards the use count is 1, and a
    second call does nothing. An unshared Core is not touched at all; a
    shared one costs exactly one diagnostic. *)
Theorem acquare_data_ownership_exclusive message t w cell :
  heap w !! core t = Some cell ->
  exists t1 w1,
    acquare_data_ownership message t w = (Ok t1, w1) /\
    names t1 = names t /\
    heap w1 !! core t1 = Some (mkCell 1 (cell_core cell)) /\
    (forall message', acquare_data_ownership message' t1 w1 = (Ok t1, w1)) /\
    (use_count cell = 1 -> t1 = t /\ w1 = w) /\
    (use_count cell <> 1 ->
       diagnostics w1 = (diagnostics w ++ [message])%list).
Proof.
  intros Hcell.
  destruct (acquare_exclusive message t w cell Hcell)
    as (t1 & w1 & Hacq & Hnames & Hcell1 & Hone & Hshared).
  exists t1, w1. split; [exact Hacq|]. split; [exact Hnames|].
  split; [exact Hcell1|].
  split; [intros message'; now apply (acquare_unshared _ _ _ _ Hcell1)|].
  split; [exact Hone|]. intros Hc. now destruct (Hshared Hc) as (_ & ? & _).
Qed.

Lemma set_storage_twice (c : Core Sym ScalarType) (s s' : list ScalarType) :
  set_storage (set_storage c s) s' = set_storage c s'.
Proof. reflexivity. Qed.

(** X12. [transform] replaces every stored element by its image under
    the function, in place and in order, and keeps names, edges and
    blocks; a second [transform] right after composes with the first and
    neither copies nor warns, since the handle now owns its Core
    alone. *)
Theorem transform_maps_storage (function : ScalarType -> ScalarType) t w cell :
  heap w !! core t = Some cell ->
  exists t' w',
    transform function t w = (Ok t', w') /\
    names t' = names t /\
    read_core t' w' =
      Ok (set_storage (cell_core cell)
            (map function (storage (cell_core cell)))) /\
    forall g : ScalarType -> ScalarType,
      exists w'',
        transform g t' w' = (Ok t', w'') /\
        read_core t' w'' =
          Ok (set_storage (cell_core cell)
                (map (fun x => g (function x)) (storage (cell_core cell)))) /\
        diagnostics w'' = diagnostics w' /\
        dom (heap w'') = dom (heap w').
Proof.
  intros Hcell. unfold transform.
  destruct (barrier_then_modify "Set tensor shared, copy happened here"
              (fun s => Ok (map function s)) t w cell _ Hcell eq_refl)
    as (t' & w' & Hrun & Hnames & Hcell' & _).
  exists t', w'. split; [exact Hrun|]. split; [exact Hnames|].
  split; [unfold read_core; now rewrite Hcell'|].
  intros g.
  destruct (barrier_then_modify "Set tensor shared, copy happened here"
              (fun s => Ok (map g s)) t' w' _ _ Hcell' eq_refl)
    as (t'' & w'' & Hrun' & _ & Hcell'' & _ & Hone & _).
  destruct (Hone eq_refl) as (-> & Hdiag & Hdom).
  exists w''. split; [exact Hrun'|].
  split; [|split; assumption].
  unfold read_core. rewrite Hcell''. simpl. now rewrite map_map.
Qed.

(** X13. [zero] sets every stored element to [0] and keeps the length of
    the storage, the names, the edges and the blocks. *)
Theorem zero_fills_storage t w cell :
  heap w !! core t = Some cell ->
  exists t' w',
    zero t w = (Ok t', w') /\
    names t' = names t /\
    read_core t' w' =
      Ok (set_storage (cell_core cell)
            (replicate (length (storage (cell_core cell))) scalar_zero)).
Proof.
  intros Hcell. unfold zero, set.
  destruct (barrier_then_modify "Set tensor shared, copy happened here"
              (fun s =>
                 Ok (std_generate (fun u : unit => (scalar_zero, u)) tt
                       (length s)))
              t w cell _ Hcell eq_refl)
    as (t' & w' & Hrun & Hnames & Hcell' & _).
  exists t', w'. split; [exact Hrun|]. split; [exact Hnames|].
  unfold read_core. rewrite Hcell'. simpl.
  now rewrite std_generate_constant.
Qed.

(** X14. Right after a mutating member has returned, a second mutating
    member on the returned handle never copies: it allocates nothing,
    emits no diagnostic and keeps the handle. *)
Theorem second_mutation_in_place (m1 m2 : mutation Position) t w cell
    t1 w1 r w2 :
  heap w !! core t = Some cell ->
  mutate Position get_item m1 t w = (Ok t1, w1) ->
  mutate Position get_item m2 t1 w1 = (r, w2) ->
  diagnostics w2 = diagnostics w1 /\
  dom (heap w2) = dom (heap w1) /\
  (forall t', r = Ok t' -> t' = t1).
Proof.
  intros Hcell Hrun1 Hrun2.
  destruct (mutate_barrier get_item m1 t) as (msg1 & body1 & Hbody1 & Heq1).
  destruct (mutate_barrier get_item m2 t1) as (msg2 & body2 & Hbody2 & Heq2).
  rewrite Heq1 in Hrun1. rewrite Heq2 in Hrun2. unfold bind in Hrun1, Hrun2.
  destruct (acquare_exclusive msg1 t w cell Hcell)
    as (t0 & w0 & Hacq & _ & Hcell0 & _).
  rewrite Hacq in Hrun1.
  destruct (Hbody1 t0 w0 _ Hcell0) as (r1 & s & Hb & _ & Hr).
  rewrite Hb in Hrun1. injection Hrun1 as Hr1 <-.
  pose proof (Hr _ Hr1) as ->.
  assert (Hcell1 :
    heap (mkWorld
            (<[core t0 := mkCell 1 (set_storage (cell_core cell) s)]> (heap w0))
            (diagnostics w0)) !! core t0
    = Some (mkCell 1 (set_storage (cell_core cell) s)))
    by apply lookup_insert_eq.
  rewrite (acquare_unshared _ _ _ _ Hcell1 eq_refl) in Hrun2.
  destruct (Hbody2 _ _ _ Hcell1) as (r2 & s2 & Hb2 & _ & Hr2).
  rewrite Hb2 in Hrun2. injection Hrun2 as <- <-. simpl.
  split; [reflexivity|]. split; [|exact Hr2].
  rewrite insert_insert_eq, !dom_insert_L. reflexivity.
Qed.

(** X15. On a scalar-like tensor, assigning through the reference of the
    non-const [at()] and reading with [const_at()] or the scalar
    conversion gives the assigned value back. *)
Theorem at_write_then_read (x : ScalarType) t w cell :
  heap w !! core t = Some cell ->
  length (storage (cell_core cell)) = 1 ->
  exists t' w',
    mutate Position get_item (write_at x) t w = (Ok t', w') /\
    names t' = names t /\
    const_at t' w' = Ok x /\
    to_scalar t' w' = Ok x /\
    tensor_storage t' w' = Ok [x].
Proof.
  intros Hcell Hlen.
  destruct (acquare_exclusive at_message t w cell Hcell)
    as (t1 & w1 & Hacq & Hnames & Hcell1 & _).
  destruct (storage (cell_core cell)) as [|y [|z s]] eqn:Hs;
    try discriminate.
  unfold mutate, at_mut, bind. rewrite Hacq. unfold read, const_at, read_core.
  rewrite Hcell1. simpl. unfold core_const_at, scalar_like. rewrite Hs. simpl.
  unfold assign. simpl. rewrite Hcell1. simpl. rewrite Hs. simpl.
  exists t1. eexists. split; [reflexivity|]. split; [exact Hnames|].
  unfold to_scalar, const_at, tensor_storage, read_core. simpl.
  rewrite lookup_insert_eq. simpl. repeat split; reflexivity.
Qed.

(** X16. The non-const [at()] runs the write barrier before it checks
    that the tensor is scalar-like: on a shared tensor with more or
    fewer than one element it raises the error after the Core has been
    copied and the diagnostic emitted; on an unshared one the error
    leaves the world as it was. *)
Theorem at_copies_before_failing t w cell :
  heap w !! core t = Some cell ->
  length (storage (cell_core cell)) <> 1 ->
  exists w1,
    at_mut t w =
      (Fatal "Try to get the only element of t he tensor which contains more than one element",
       w1) /\
    (use_count cell = 1 -> w1 = w) /\
    (use_count cell <> 1 ->
       diagnostics w1 = (diagnostics w ++ [at_message])%list /\
       heap w !! fresh (dom (heap w)) = None /\
       heap w1 !! fresh (dom (heap w)) = Some (mkCell 1 (cell_core cell))).
Proof.
  intros Hcell Hlen.
  destruct (acquare_exclusive at_message t w cell Hcell)
    as (t1 & w1 & Hacq & Hnames & Hcell1 & Hone & Hshared).
  exists w1. split.
  - unfold at_mut, bind. rewrite Hacq. unfold read, const_at, read_core.
    rewrite Hcell1. simpl. unfold core_const_at, scalar_like.
    destruct (Nat.eqb_spec (length (storage (cell_core cell))) 1);
      [contradiction|]. reflexivity.
  - split; [intros Hc; now destruct (Hone Hc)|].
    intros Hc. destruct (Hshared Hc) as (Hcore & Hdiag & Hheap).
    split; [exact Hdiag|]. split; [apply fresh_lookup|].
    now rewrite <- Hcore.
Qed.

(** X17. After a Tensor has been copied with the copy constructor the
    two handles share one Core, so the next mutating member through one
    of them copies: it emits one diagnostic, moves that handle to a
    fresh Core, and the other handle goes on reading the old content. *)
Theorem copy_constructed_then_mutated (m : mutation Position) t w cell
    r1 w1 r w2 :
  heap w !! core t = Some cell -> use_count cell <> 0 ->
  Tensor_copy t w = (r1, w1) ->
  mutate Position get_item m t w1 = (r, w2) ->
  r1 = Ok t /\
  read_core t w2 = Ok (cell_core cell) /\
  length (diagnostics w2) = S (length (diagnostics w)) /\
  heap w2 !! core t = Some cell /\
  (forall t', r = Ok t' ->
     core t' <> core t /\ (core t' ∉ dom (heap w)) /\
     exists s, read_core t' w2 = Ok (set_storage (cell_core cell) s)).
Proof.
  intros Hcell Hcount Hcopy Hrun. unfold Tensor_copy in Hcopy.
  rewrite Hcell in Hcopy. injection Hcopy as <- <-.
  split; [reflexivity|].
  set (w1 := mkWorld
               (<[core t := mkCell (S (use_count cell)) (cell_core cell)]>
                  (heap w)) (diagnostics w)) in *.
  assert (Hcell1 : heap w1 !! core t
                   = Some (mkCell (S (use_count cell)) (cell_core cell)))
    by apply lookup_insert_eq.
  assert (Hdom1 : dom (heap w1) = dom (heap w)).
  { unfold w1. simpl. rewrite dom_insert_L.
    apply subseteq_union_1_L, singleton_subseteq_l, elem_of_dom. eauto. }
  destruct (mutate_barrier get_item m t) as (msg & body & Hbody & Heq).
  rewrite Heq in Hrun. unfold bind in Hrun.
  destruct (acquare_exclusive msg t w1 _ Hcell1)
    as (t0 & w0 & Hacq & _ & Hcell0 & _ & Hshared).
  rewrite Hacq in Hrun.
  destruct Hshared as (Hcore & Hdiag & Hheap); [simpl; lia|].
  simpl in Hcell0, Hheap.
  destruct (Hbody t0 w0 _ Hcell0) as (r0 & s & Hb & _ & Hr).
  rewrite Hb in Hrun. injection Hrun as <- <-.
  assert (Hfresh : heap w1 !! fresh (dom (heap w1)) = None)
    by apply fresh_lookup.
  assert (Hne : core t <> core t0) by (rewrite Hcore; congruence).
  assert (Hold : (<[core t0 := mkCell 1 (set_storage (cell_core cell) s)]>
                    (heap w0)) !! core t = Some cell).
  { rewrite lookup_insert_ne by congruence. rewrite Hheap, lookup_insert_eq.
    destruct cell as [n c]. simpl in *. do 2 f_equal. lia. }
  split; [unfold read_core; simpl; now rewrite Hold|].
  split; [simpl; rewrite Hdiag, length_app; simpl; lia|].
  split; [exact Hold|].
  intros t' Ht'. rewrite (Hr _ Ht').
  split; [congruence|]. split.
  - rewrite Hcore, Hdom1. rewrite <- Hdom1. now apply not_elem_of_dom.
  - exists s. unfold read_core. simpl. now rewrite lookup_insert_eq.
Qed.

End MutatorProperties.

(** ** Range *)

Lemma std_generate_iterates {ScalarType : Type}
    (next : ScalarType -> ScalarType) (first : ScalarType) (n : nat) :
  std_generate (fun a => (a, next a)) first n
    = map (fun i => Nat.iter i next first) (seq 0 n).
Proof.
  revert first. induction n as [|n IH]; intros first; [reflexivity|].
  cbn [std_generate seq map]. rewrite IH. f_equal.
  rewrite <- seq_shift, map_map. apply map_ext. intros i.
  symmetry. apply Nat.iter_succ_r.
Qed.

(** X18. [range(first, step)] stores at flat position [i] what [i]
    additions of [step] make of [first], each addition in the arithmetic
    of the scalar type: the element at 0 is [first] and every later one
    is its predecessor plus [step]. Names and edges are kept. In
    [double] the additions round, so [range(1e16, 1)] stores [1e16] at
    every position. *)
Theorem range_accumulates {Sym : Type} {SymI : Symmetry Sym}
    {ScalarType : Type} {ScalarI : Scalar ScalarType}
    (first step : ScalarType) (t : Tensor) (w : World Sym ScalarType)
    (cell : Cell Sym ScalarType) :
  heap w !! core t = Some cell ->
  exists t' w' s,
    range first step t w = (Ok t', w') /\
    names t' = names t /\
    tensor_edges t' w' = Ok (edges (cell_core cell)) /\
    tensor_storage t' w' = Ok s /\
    s = map (fun i => Nat.iter i (fun a => scalar_add a step) first)
          (seq 0 (length (storage (cell_core cell)))) /\
    (forall x, s !! 0 = Some x -> x = first) /\
    (forall i x y, s !! i = Some x -> s !! S i = Some y ->
       y = scalar_add x step).
Proof.
  intros Hcell. unfold range, set.
  destruct (barrier_then_modify "Set tensor shared, copy happened here"
              (fun s =>
                 Ok (std_generate
                       (fun first => (first, scalar_add first step)) first
                       (length s)))
              t w cell _ Hcell eq_refl)
    as (t' & w' & Hrun & Hnames & Hcell' & _).
  exists t', w'. eexists. split; [exact Hrun|]. split; [exact Hnames|].
  unfold tensor_edges, tensor_storage, read_core. rewrite Hcell'. simpl.
  split; [reflexivity|]. split; [reflexivity|].
  split; [apply std_generate_iterates|].
  rewrite std_generate_iterates.
  set (n := length (storage (cell_core cell))). split.
  - intros x Hx. apply list_lookup_fmap_Some in Hx.
    destruct Hx as (i & Hx & Hi). apply lookup_seq in Hi.
    destruct Hi as [-> _]. now subst x.
  - intros i x y Hx Hy. apply list_lookup_fmap_Some in Hx, Hy.
    destruct Hx as (i1 & -> & Hi1). destruct Hy as (i2 & -> & Hi2).
    apply lookup_seq in Hi1, Hi2. destruct Hi1 as [-> _], Hi2 as [-> _].
    reflexivity.
Qed.

(** ** Map, copy and conversion *)

Section MapAndCopy.
Context {Sym : Type} {SymI : Symmetry Sym}.

Lemma map_tensor_fresh {A B : Type} debug_mode (uninit : nat -> B)
    (function : A -> B) t (source : World Sym A) (c : Core Sym A)
    (target : World Sym B) :
  read_core t source = Ok c ->
  length (storage c) = total_volume (allowed_blocks (edges c)) ->
  length (names t) = length (edges c) -> List.NoDup (names t) ->
  map_tensor debug_mode uninit function t source target =
    (Ok (mkTensor (names t) (fresh (dom (heap target)))),
     mkWorld
       (<[fresh (dom (heap target)) :=
            mkCell 1 (set_storage (Core_make uninit (edges c))
                        (map function (storage c)))]> (heap target))
       (diagnostics target)).
Proof.
  intros Hc Hlen Hnames Hnd.
  unfold map_tensor, tensor_storage, same_shape.
  rewrite Hc. unfold bind.
  rewrite (Tensor_new_valid debug_mode uninit _ _ target Hnames Hnd).
  unfold modify_storage. simpl. rewrite lookup_insert_eq. simpl.
  rewrite std_transform_into_exact
    by (now rewrite length_map, length_seq).
  unfold ret. now rewrite insert_insert_eq.
Qed.

Lemma fresh_untouched {B : Type} (target : World Sym B)
    (cell : Cell Sym B) (diag : list string) (t2 : Tensor) :
  core t2 ∈ dom (heap target) ->
  read_core t2
    (mkWorld (<[fresh (dom (heap target)) := cell]> (heap target)) diag)
  = read_core t2 target.
Proof.
  intros Hdom. unfold read_core. simpl.
  rewrite lookup_insert_ne; [reflexivity|].
  intros E. rewrite <- E in Hdom. apply elem_of_dom in Hdom.
  rewrite fresh_lookup in Hdom. destruct Hdom; discriminate.
Qed.

(** X19. For a tensor that meets the invariants of the data model,
    [map(function)] returns a tensor over a fresh, unshared Core with
    the names and edges of the source whose storage is the image of the
    source's storage under [function], element by element in order; it
    emits no diagnostic and changes no Core that existed. Two [map]s in
    a row store what one [map] of the composed function stores. *)
Theorem map_tensor_maps_storage {A B C : Type} debug_mode
    (uninit : nat -> B) (uninit' : nat -> C)
    (function : A -> B) (g : B -> C) t
    (source : World Sym A) (c : Core Sym A) (target : World Sym B)
    (last : World Sym C) :
  read_core t source = Ok c ->
  length (storage c) = total_volume (allowed_blocks (edges c)) ->
  length (names t) = length (edges c) -> List.NoDup (names t) ->
  exists t1 target',
    map_tensor debug_mode uninit function t source target = (Ok t1, target') /\
    names t1 = names t /\
    tensor_edges t1 target' = Ok (edges c) /\
    tensor_storage t1 target' = Ok (map function (storage c)) /\
    (core t1 ∉ dom (heap target)) /\
    heap target' !! core t1
      = Some (mkCell 1 (set_storage (Core_make uninit (edges c))
                          (map function (storage c)))) /\
    diagnostics target' = diagnostics target /\
    (forall t2 : Tensor, core t2 ∈ dom (heap target) ->
       read_core t2 target' = read_core t2 target) /\
    exists t2 last',
      map_tensor debug_mode uninit' g t1 target' last = (Ok t2, last') /\
      tensor_storage t2 last'
        = Ok (map (fun x => g (function x)) (storage c)) /\
      map_tensor debug_mode uninit' (fun x => g (function x)) t source last
        = (Ok t2, last').
Proof.
  intros Hc Hlen Hnames Hnd.
  rewrite (map_tensor_fresh _ _ _ _ _ _ _ Hc Hlen Hnames Hnd).
  eexists _, _. split; [reflexivity|]. simpl.
  split; [reflexivity|].
  unfold tensor_edges, tensor_storage, read_core. simpl.
  rewrite lookup_insert_eq. simpl.
  split; [reflexivity|]. split; [reflexivity|].
  split; [apply not_elem_of_dom, fresh_lookup|].
  split; [reflexivity|]. split; [reflexivity|].
  split; [intros t2 Hdom; now rewrite lookup_insert_ne
            by (intros E; rewrite <- E in Hdom; apply elem_of_dom in Hdom;
                rewrite fresh_lookup in Hdom; destruct Hdom; discriminate)|].
  rewrite (map_tensor_fresh _ uninit' (fun x => g (function x)) _ _ _ last
             Hc Hlen Hnames Hnd).
  rewrite (map_tensor_fresh _ uninit' g _ _
             (set_storage (Core_make uninit (edges c))
                (map function (storage c))) last).
  - eexists _, _. split; [reflexivity|]. simpl.
    rewrite lookup_insert_eq. simpl. rewrite map_map.
    split; reflexivity.
  - unfold read_core. simpl. rewrite lookup_insert_eq. reflexivity.
  - simpl. now rewrite length_map.
  - exact Hnames.
  - exact Hnd.
Qed.

(** X20. [copy] is a deep copy: the result has the names, edges and
    stored elements of the source on a fresh Core of its own, no
    diagnostic is emitted, and the source is unchanged. *)
Theorem copy_is_deep {A : Type} debug_mode (uninit : nat -> A) t
    (w : World Sym A) (c : Core Sym A) :
  read_core t w = Ok c ->
  length (storage c) = total_volume (allowed_blocks (edges c)) ->
  length (names t) = length (edges c) -> List.NoDup (names t) ->
  exists t' w',
    copy debug_mode uninit t w = (Ok t', w') /\
    names t' = names t /\
    core t' <> core t /\
    tensor_edges t' w' = Ok (edges c) /\
    tensor_storage t' w' = Ok (storage c) /\
    (exists c', heap w' !! core t' = Some (mkCell 1 c')) /\
    diagnostics w' = diagnostics w /\
    (forall t2 : Tensor, core t2 ∈ dom (heap w) ->
       read_core t2 w' = read_core t2 w).
Proof.
  intros Hc Hlen Hnames Hnd. unfold copy.
  rewrite (map_tensor_fresh _ _ _ _ _ _ _ Hc Hlen Hnames Hnd).
  assert (Hin : core t ∈ dom (heap w)).
  { apply elem_of_dom. unfold read_core in Hc.
    destruct (heap w !! core t); [eauto | discriminate]. }
  eexists _, _. split; [reflexivity|]. simpl.
  split; [reflexivity|].
  split.
  { intros E. rewrite <- E in Hin. apply elem_of_dom in Hin.
    rewrite fresh_lookup in Hin. destruct Hin; discriminate. }
  split; [unfold tensor_edges, read_core; simpl;
          now rewrite lookup_insert_eq|].
  split; [unfold tensor_storage, read_core; simpl;
          rewrite lookup_insert_eq; simpl; now rewrite map_id|].
  split; [eexists; apply lookup_insert_eq|].
  split; [reflexivity|].
  intros t2 Hdom. now apply fresh_untouched.
Qed.

(** X21. Converting a real tensor to complex and back gives a tensor
    with the names, the edges and the stored elements of the original:
    [to<complex>] sets every imaginary part to zero and [to<double>]
    takes the real parts. *)
Theorem to_complex_to_real debug_mode (uninit : nat -> complex)
    (uninit' : nat -> R) t (source : World Sym R) (c : Core Sym R)
    (middle : World Sym complex) (target : World Sym R) :
  read_core t source = Ok c ->
  length (storage c) = total_volume (allowed_blocks (edges c)) ->
  length (names t) = length (edges c) -> List.NoDup (names t) ->
  exists t1 middle' t2 target',
    to_complex debug_mode uninit t source middle = (Ok t1, middle') /\
    tensor_storage t1 middle' = Ok (map (fun x => (x, 0%R)) (storage c)) /\
    to_real debug_mode uninit' t1 middle' target = (Ok t2, target') /\
    names t2 = names t /\
    tensor_edges t2 target' = Ok (edges c) /\
    tensor_storage t2 target' = Ok (storage c).
Proof.
  intros Hc Hlen Hnames Hnd. unfold to_complex, to_real, to_other.
  rewrite (map_tensor_fresh _ _ _ _ _ _ _ Hc Hlen Hnames Hnd).
  eexists _, _, _, _. split; [reflexivity|].
  split; [unfold tensor_storage, read_core; simpl;
          now rewrite lookup_insert_eq|].
  rewrite (map_tensor_fresh _ uninit' real_of_complex _ _
             (set_storage (Core_make uninit (edges c))
                (map complex_of_real (storage c))) target).
  - split; [reflexivity|]. simpl. split; [reflexivity|].
    unfold tensor_edges, tensor_storage, read_core. simpl.
    rewrite lookup_insert_eq. simpl. split; [reflexivity|].
    rewrite map_map. unfold real_of_complex, complex_of_real. simpl.
    now rewrite map_id.
  - unfold read_core. simpl. rewrite lookup_insert_eq. reflexivity.
  - simpl. now rewrite length_map.
  - exact Hnames.
  - exact Hnd.
Qed.

End MapAndCopy.

(** ** Norms *)

Section Norms.
Context {Sym : Type} {SymI : Symmetry Sym}.
Context {ScalarType : Type} {AbsI : Absolute ScalarType}.
Implicit Types (w : World Sym ScalarType) (t : Tensor).

Lemma fold_left_max (s : list ScalarType) (acc : R) :
  let m :=
    fold_left
      (fun result number =>
         if Rlt_dec result (std_abs number) then std_abs number else result)
      s acc in
  (acc <= m)%R /\
  (forall x, In x s -> (std_abs x <= m)%R) /\
  (m = acc \/ exists x, In x s /\ m = std_abs x).
Proof.
  revert acc. induction s as [|y s IH]; intros acc; simpl.
  - split; [lra|]. split; [intros x []|now left].
  - destruct (Rlt_dec acc (std_abs y)) as [Hlt|Hge].
    + destruct (IH (std_abs y)) as (Hle & Hall & Hatt).
      split; [lra|]. split.
      * intros x [<-|Hx]; [exact Hle | now apply Hall].
      * right. destruct Hatt as [E|(x & Hx & E)]; [exists y | exists x]; auto.
    + destruct (IH acc) as (Hle & Hall & Hatt).
      split; [exact Hle|]. split.
      * intros x [<-|Hx]; [lra | now apply Hall].
      * destruct Hatt as [E|(x & Hx & E)]; [now left|].
        right. exists x. auto.
Qed.

(** X22. [norm<-1>] is never negative, bounds the absolute value of
    every stored element from above, and is either [0] or the absolute
    value of a stored element; it is [0] on an empty storage. *)
Theorem norm_max_is_maximum t w c :
  read_core t w = Ok c ->
  exists m,
    norm_max t w = Ok m /\
    (0 <= m)%R /\
    (forall x, In x (storage c) -> (std_abs x <= m)%R) /\
    (m = 0%R \/ exists x, In x (storage c) /\ m = std_abs x) /\
    (storage c = [] -> m = 0%R).
Proof.
  intros Hc. unfold norm_max. rewrite Hc. eexists. split; [reflexivity|].
  unfold core_norm_max.
  destruct (fold_left_max (storage c) 0%R) as (Hle & Hall & Hatt).
  split; [exact Hle|]. split; [exact Hall|]. split; [exact Hatt|].
  intros ->. reflexivity.
Qed.

End Norms.

(** ** Runs on the tensors of the test files *)

Lemma acquare_data_ownership_exclusive_witness :
  exists t1 w1,
    acquare_data_ownership "copy happened here" rename_t1 shared_world
      = (Ok t1, w1) /\
    heap w1 !! core t1 = Some (mkCell 1 rename_core) /\
    diagnostics w1 = ["copy happened here"].
Proof.
  destruct (acquare_data_ownership_exclusive "copy happened here" rename_t1
              shared_world (mkCell 2 rename_core) eq_refl)
    as (t1 & w1 & Hacq & _ & Hcell & _ & _ & Hdiag).
  exists t1, w1. split; [exact Hacq|]. split; [exact Hcell|].
  apply Hdiag. simpl. lia.
Defined.

Lemma transform_maps_storage_witness :
  exists t' w',
    transform (Rmult 2) (mkTensor [] 1%positive) three_four_world
      = (Ok t', w') /\
    read_core t' w' = Ok (mkCore [] [] [(2 * 3)%R; (2 * 4)%R]).
Proof.
  destruct (transform_maps_storage (Rmult 2) (mkTensor [] 1%positive)
              three_four_world (mkCell 1 (mkCore [] [] [3%R; 4%R])) eq_refl)
    as (t' & w' & Hrun & _ & Hread & _).
  exists t', w'. split; [exact Hrun | exact Hread].
Defined.

Lemma zero_fills_storage_witness :
  exists t' w',
    zero (mkTensor ["Left"] 1%positive) double_world = (Ok t', w') /\
    read_core t' w'
      = Ok (set_storage double_core [0%float; 0%float; 0%float]).
Proof.
  destruct (zero_fills_storage (mkTensor ["Left"] 1%positive) double_world
              (mkCell 1 double_core) eq_refl)
    as (t' & w' & Hrun & _ & Hread).
  exists t', w'. split; [exact Hrun | exact Hread].
Defined.

Lemma second_mutation_in_place_witness :
  diagnostics
    (snd (mutate unit first_item (call_transform (PrimFloat.mul 2))
            (mkTensor ["Left"; "Right"; "Phy"] 2%positive)
            (snd (mutate unit first_item call_zero rename_t1 shared_world))))
  = diagnostics
      (snd (mutate unit first_item call_zero rename_t1 shared_world)).
Proof.
  exact (proj1
           (second_mutation_in_place first_item call_zero
              (call_transform (PrimFloat.mul 2)) rename_t1 shared_world
              (mkCell 2 rename_core)
              (mkTensor ["Left"; "Right"; "Phy"] 2%positive)
              (snd (mutate unit first_item call_zero rename_t1 shared_world))
              (fst (mutate unit first_item (call_transform (PrimFloat.mul 2))
                      (mkTensor ["Left"; "Right"; "Phy"] 2%positive)
                      (snd (mutate unit first_item call_zero rename_t1
                              shared_world))))
              (snd (mutate unit first_item (call_transform (PrimFloat.mul 2))
                      (mkTensor ["Left"; "Right"; "Phy"] 2%positive)
                      (snd (mutate unit first_item call_zero rename_t1
                              shared_world))))
              eq_refl eq_refl eq_refl)).
Defined.

Lemma at_write_then_read_witness :
  exists t' w',
    mutate unit first_item (write_at 7%float) (mkTensor [] 1%positive)
      scalar_shared_world = (Ok t', w') /\
    const_at t' w' = Ok 7%float.
Proof.
  destruct (at_write_then_read first_item 7%float (mkTensor [] 1%positive)
              scalar_shared_world
              (mkCell 2 (mkCore [] [([], mkContent 0 1)] [5%float]))
              eq_refl eq_refl)
    as (t' & w' & Hrun & _ & Hread & _).
  exists t', w'. split; [exact Hrun | exact Hread].
Defined.

Lemma at_copies_before_failing_witness :
  exists w1,
    fst (at_mut rename_t1 shared_world)
      = Fatal "Try to get the only element of t he tensor which contains more than one element" /\
    snd (at_mut rename_t1 shared_world) = w1 /\
    diagnostics w1 = [at_message].
Proof.
  destruct (at_copies_before_failing rename_t1 shared_world
              (mkCell 2 rename_core) eq_refl)
    as (w1 & Hrun & _ & Hshared).
  - simpl. lia.
  - exists w1. rewrite Hrun. split; [reflexivity|]. split; [reflexivity|].
    apply Hshared. simpl. lia.
Defined.

Lemma copy_constructed_then_mutated_witness :
  read_core rename_t1
    (snd (mutate unit first_item call_zero rename_t1
            (snd (Tensor_copy rename_t1 rename_world))))
  = Ok rename_core.
Proof.
  exact (proj1 (proj2
           (copy_constructed_then_mutated first_item call_zero rename_t1
              rename_world (mkCell 1 rename_core)
              (fst (Tensor_copy rename_t1 rename_world))
              (snd (Tensor_copy rename_t1 rename_world))
              (fst (mutate unit first_item call_zero rename_t1
                      (snd (Tensor_copy rename_t1 rename_world))))
              (snd (mutate unit first_item call_zero rename_t1
                      (snd (Tensor_copy rename_t1 rename_world))))
              eq_refl (Nat.neq_succ_0 0) eq_refl eq_refl))).
Defined.

Lemma range_accumulates_witness :
  exists t' w',
    range 1e16%float 1%float (mkTensor ["Left"] 1%positive) double_world
      = (Ok t', w') /\
    tensor_storage t' w' = Ok [1e16%float; 1e16%float; 1e16%float].
Proof.
  destruct (range_accumulates 1e16%float 1%float
              (mkTensor ["Left"] 1%positive) double_world
              (mkCell 1 double_core) eq_refl)
    as (t' & w' & s & Hrun & _ & _ & Hstorage & Hs & _).
  exists t', w'. split; [exact Hrun|].
  rewrite Hstorage, Hs. reflexivity.
Defined.

Lemma map_tensor_maps_storage_witness :
  exists t1 target',
    map_tensor true zero_fill (Rmult 2) (mkTensor ["Left"] 1%positive)
      real_pair_world empty_world = (Ok t1, target') /\
    tensor_storage t1 target' = Ok [(2 * 3)%R; (2 * 4)%R].
Proof.
  destruct (map_tensor_maps_storage true zero_fill complex_zero_fill
              (Rmult 2) complex_of_real (mkTensor ["Left"] 1%positive)
              real_pair_world real_pair_core empty_world empty_complex_world)
    as (t1 & target' & Hrun & _ & _ & Hstorage & _).
  - reflexivity.
  - reflexivity.
  - reflexivity.
  - repeat constructor. simpl. tauto.
  - exists t1, target'. split; [exact Hrun | exact Hstorage].
Defined.

Lemma copy_is_deep_witness :
  exists t' w',
    copy true zero_fill (mkTensor ["Left"] 1%positive) real_pair_world
      = (Ok t', w') /\
    core t' <> 1%positive /\
    tensor_storage t' w' = Ok [3%R; 4%R].
Proof.
  destruct (copy_is_deep true zero_fill (mkTensor ["Left"] 1%positive)
              real_pair_world real_pair_core)
    as (t' & w' & Hrun & _ & Hne & _ & Hstorage & _).
  - reflexivity.
  - reflexivity.
  - reflexivity.
  - repeat constructor. simpl. tauto.
  - exists t', w'. split; [exact Hrun|]. split; [exact Hne | exact Hstorage].
Defined.

Lemma to_complex_to_real_witness :
  exists t1 middle' t2 target',
    to_complex true complex_zero_fill (mkTensor ["Left"] 1%positive)
      real_pair_world empty_complex_world = (Ok t1, middle') /\
    to_real true zero_fill t1 middle' empty_world = (Ok t2, target') /\
    tensor_storage t2 target' = Ok [3%R; 4%R].
Proof.
  destruct (to_complex_to_real true complex_zero_fill zero_fill
              (mkTensor ["Left"] 1%positive) real_pair_world real_pair_core
              empty_complex_world empty_world)
    as (t1 & middle' & t2 & target' & Hto & _ & Hback & _ & _ & Hstorage).
  - reflexivity.
  - reflexivity.
  - reflexivity.
  - repeat constructor. simpl. tauto.
  - exists t1, middle', t2, target'.
    split; [exact Hto|]. split; [exact Hback | exact Hstorage].
Defined.

Lemma norm_max_is_maximum_witness :
  exists m,
    norm_max (mkTensor [] 1%positive) three_four_world = Ok m /\
    (Rabs 4 <= m)%R.
Proof.
  destruct (norm_max_is_maximum (mkTensor [] 1%positive) three_four_world
              (mkCore [] [] [3%R; 4%R]) eq_refl)
    as (m & Hrun & _ & Hall & _).
  exists m. split; [exact Hrun|].
  apply (Hall 4%R). simpl. tauto.
Defined.
